(** * rgeo: local reverse geocoding

    A shallow embedding of the Go package [rgeo] (the current source file and
    the earlier [rgeo.go]) and the properties of it that its specification
    states.

    Conventions of the embedding.
    - [float64] arithmetic is taken through the interface [Scalar]; it is
      instantiated with IEEE 754 binary64 ([float64], Rocq's primitive floats),
      with exact integers, rationals and real numbers ([exactZ], [exactQc],
      [exactR]), and with binary64 that records beside each number the exact
      rational result for as long as nothing has rounded ([trackedFloat64]).
    - A Go run-time panic of the package's own code (index out of range,
      [make] with a negative length, a nil pointer dereferenced) is [None]
      in the [option] monad; a function whose Go signature ends in [error]
      returns the pair Go returns, with [None] for a [nil] error.
    - The S2 geometry library, gzip and the GeoJSON decoder are not part of
      the package: their operations are the fields of the classes [S2] and
      [Codec], and every theorem holds for all their implementations. The
      operations of S2 are taken where they return, on points with finite
      coordinates. *)

From stdpp Require Import base option list strings gmap sorting.
From Stdlib Require Import ZArith PrimFloat Uint63 Lia Reals Lra.
From Stdlib Require Import Floats QArith Qcanon.
From Stdlib.Strings Require Import Byte.

Close Scope Qc_scope.
Close Scope Q_scope.
Local Open Scope string_scope.
Local Open Scope nat_scope.
Local Open Scope list_scope.

(** ** Numbers *)

(** The operations of Go's [float64] that the package uses. *)
Class Scalar (F : Type) := {
  fzero : F;
  fconst : Z → F;          (* an untyped integer constant converted to float64 *)
  fadd : F → F → F;
  fsub : F → F → F;
  fmul : F → F → F;
  feqb : F → F → bool;     (* == *)
  fltb : F → F → bool;     (* <  *)
}.

(** IEEE 754 binary64, as Go's [float64] on a target that does not fuse
    multiply and add. *)
#[export] Instance float64 : Scalar float := {|
  fzero := PrimFloat.zero;
  fconst := λ z,
    if (z <? 0)%Z then PrimFloat.opp (PrimFloat.of_uint63 (Uint63.of_Z (- z)))
    else PrimFloat.of_uint63 (Uint63.of_Z z);
  fadd := PrimFloat.add;
  fsub := PrimFloat.sub;
  fmul := PrimFloat.mul;
  feqb := PrimFloat.eqb;
  fltb := PrimFloat.ltb;
|}.

(** Exact arithmetic on integers: the same operations without rounding. *)
Definition exactZ : Scalar Z := {|
  fzero := 0%Z;
  fconst := λ z, z;
  fadd := Z.add;
  fsub := Z.sub;
  fmul := Z.mul;
  feqb := Z.eqb;
  fltb := Z.ltb;
|}.

(** Exact arithmetic on real numbers; the two tests are decided by the
    axioms of the reals and do not compute. *)
Definition exactR : Scalar R := {|
  fzero := 0%R;
  fconst := IZR;
  fadd := Rplus;
  fsub := Rminus;
  fmul := Rmult;
  feqb := λ x y, if Req_dec_T x y then true else false;
  fltb := λ x y, if Rlt_dec x y then true else false;
|}.

(** ** Loops of the source *)

(** [for _, i := range idxs { acc = body(i, acc) }], where the body may panic. *)
Fixpoint forM {A : Type} (idxs : list nat) (body : nat → A → option A) (acc : A)
    : option A :=
  match idxs with
  | [] => Some acc
  | i :: idxs' => acc' ← body i acc; forM idxs' body acc'
  end.

(** [for i := lo; i < hi; i++ { acc = body(i, acc) }]. *)
Definition for_range {A : Type} (lo hi : nat) (body : nat → A → option A)
    (acc : A) : option A :=
  forM (seq lo (hi - lo)) body acc.

(** ** Location *)

Record Location := mkLocation {
  Country : string;
  CountryLong : string;
  CountryCode2 : string;
  CountryCode3 : string;
  Continent : string;
  Region : string;
  SubRegion : string;
  Province : string;
  ProvinceCode : string;
  County : string;
  City : string;
}.

(** [Location{}], the zero value. *)
Definition emptyLocation : Location :=
  mkLocation "" "" "" "" "" "" "" "" "" "" "".

#[export] Instance Location_eq_dec : EqDecision Location.
Proof. solve_decision. Defined.

(** The eleven fields, in declaration order. *)
Definition Location_fields : list (Location → string) :=
  [Country; CountryLong; CountryCode2; CountryCode3; Continent; Region;
   SubRegion; Province; ProvinceCode; County; City].

(** [firstNonEmpty(s ...string)]: the first non empty parameter. *)
Fixpoint firstNonEmpty (s : list string) : string :=
  match s with
  | [] => ""
  | i :: s' => if decide (i ≠ "") then i else firstNonEmpty s'
  end.

(** Left-biased per-field override, in the specification's words: a field
    that is set in [a] is kept, a field that is empty in [a] is taken from
    [b]. *)
Definition keepOr (a b : string) : string := if decide (a = "") then b else a.

Definition overrideLeft (a b : Location) : Location :=
  {| Country := keepOr (Country a) (Country b);
     CountryLong := keepOr (CountryLong a) (CountryLong b);
     CountryCode2 := keepOr (CountryCode2 a) (CountryCode2 b);
     CountryCode3 := keepOr (CountryCode3 a) (CountryCode3 b);
     Continent := keepOr (Continent a) (Continent b);
     Region := keepOr (Region a) (Region b);
     SubRegion := keepOr (SubRegion a) (SubRegion b);
     Province := keepOr (Province a) (Province b);
     ProvinceCode := keepOr (ProvinceCode a) (ProvinceCode b);
     County := keepOr (County a) (County b);
     City := keepOr (City a) (City b) |}.

(** [func (l Location) String() string]. *)
Definition Location_String (l : Location) : string :=
  let ret := "<Location>" in
  if decide (l = emptyLocation) then ret +:+ " Empty Location" else
  let ret := if decide (City l ≠ "") then ret +:+ (" " +:+ City l +:+ ",") else ret in
  let ret := if decide (Province l ≠ "") then ret +:+ (" " +:+ Province l +:+ ",") else ret in
  let ret :=
    if decide (Country l ≠ "") then ret +:+ (" " +:+ Country l)
    else if decide (CountryLong l ≠ "") then ret +:+ (" " +:+ CountryLong l)
    else ret in
  let ret :=
    if decide (CountryCode3 l ≠ "") then ret +:+ (" (" +:+ CountryCode3 l +:+ ")")
    else if decide (CountryCode2 l ≠ "") then ret +:+ (" (" +:+ CountryCode2 l +:+ ")")
    else ret in
  let ret :=
    if decide (String.length "<Location>" < String.length ret)%nat then ret +:+ "," else ret in
  if decide (Continent l ≠ "") then ret +:+ (" " +:+ Continent l)
  else if decide (Region l ≠ "") then ret +:+ (" " +:+ Region l)
  else if decide (SubRegion l ≠ "") then ret +:+ (" " +:+ SubRegion l)
  else ret.

(** ** GeoJSON properties *)

(** A decoded JSON value, the dynamic content of an [interface{}]. *)
#[local] Set Warnings "-register-all".
Inductive Value (F : Type) :=
  | VNull
  | VString (s : string)
  | VNumber (x : F)
  | VBool (b : bool)
  | VArray (l : list (Value F))
  | VObject (kvs : list (string * Value F)).
#[local] Set Warnings "+register-all".
Arguments VNull {F}.
Arguments VString {F} s.
Arguments VNumber {F} x.
Arguments VBool {F} b.
Arguments VArray {F} l.
Arguments VObject {F} kvs.

(** [s, ok = v.(string)] on the result of a map read: a missing key reads as
    the nil interface, and a failed assertion gives the zero string. *)
Definition assertString {F} (v : option (Value F)) : string * bool :=
  match v with
  | Some (VString s) => (s, true)
  | _ => ("", false)
  end.

(** The loop of [getPropertyString], with the named result [s] threaded. *)
Fixpoint getPropertyString_loop {F} (m : gmap string (Value F))
    (keys : list string) (s : string) : string :=
  match keys with
  | [] => s
  | k :: keys' =>
      let '(s, ok) := assertString (m !! k) in
      if ok then s else getPropertyString_loop m keys' s
  end.

Definition getPropertyString {F} (m : gmap string (Value F))
    (keys : list string) : string :=
  getPropertyString_loop m keys "".

(** [strings.HasSuffix] and [strings.TrimSuffix]. *)
Definition HasSuffix (s suffix : string) : bool :=
  let n := String.length s in
  let m := String.length suffix in
  bool_decide (m ≤ n)%nat && String.eqb (String.substring (n - m) m s) suffix.

Definition TrimSuffix (s suffix : string) : string :=
  if HasSuffix s suffix
  then String.substring 0 (String.length s - String.length suffix) s
  else s.

Definition getLocationStrings {F} (p : gmap string (Value F)) : Location :=
  let loc := {|
    Country := getPropertyString p ["ADMIN"; "admin"];
    CountryLong := getPropertyString p ["FORMAL_EN"];
    CountryCode2 := getPropertyString p ["ISO_A2"];
    CountryCode3 := getPropertyString p ["ISO_A3"];
    Continent := getPropertyString p ["CONTINENT"];
    Region := getPropertyString p ["REGION_UN"];
    SubRegion := getPropertyString p ["SUBREGION"];
    Province := getPropertyString p ["name"];
    ProvinceCode := getPropertyString p ["iso_3166_2"];
    County := "";
    City := TrimSuffix (getPropertyString p ["name_conve"]) "2";
  |} in
  match p !! "TYPE" with
  | Some (VString "County") =>
      {| Country := Country loc; CountryLong := CountryLong loc;
         CountryCode2 := CountryCode2 loc; CountryCode3 := CountryCode3 loc;
         Continent := Continent loc; Region := Region loc;
         SubRegion := SubRegion loc; Province := Province loc;
         ProvinceCode := ProvinceCode loc;
         County := getPropertyString p ["NAME"];
         City := City loc |}
  | _ => loc
  end.

(** ** Planar geometry (package orb) *)

(** [orb.Point] is [[2]float64]: longitude, then latitude. *)
Definition Point (F : Type) : Type := (F * F)%type.
Definition X {F} (p : Point F) : F := p.1.
Definition Y {F} (p : Point F) : F := p.2.

(** [orb.Ring], [orb.Polygon] and [orb.MultiPolygon] are slices. *)
Abbreviation Ring F := (list (Point F)) (only parsing).
Abbreviation Polygon F := (list (Ring F)) (only parsing).
Abbreviation MultiPolygon F := (list (Polygon F)) (only parsing).

(** [orb.Geometry]: the two kinds the package converts, and every other kind
    (Point, LineString, ..., or a nil geometry). *)
Inductive Geometry (F : Type) :=
  | GPolygon (p : Polygon F)
  | GMultiPolygon (mp : MultiPolygon F)
  | GOther (kind : string).
Arguments GPolygon {F} p.
Arguments GMultiPolygon {F} mp.
Arguments GOther {F} kind.

(** A GeoJSON feature: geometry and properties. *)
Record Feature (F : Type) := mkFeature {
  FGeometry : Geometry F;
  FProperties : gmap string (Value F);
}.
Arguments mkFeature {F} _ _.
Arguments FGeometry {F} _.
Arguments FProperties {F} _.

(** ** Errors *)

(** The errors the package creates, one constructor per message.
    [ErrLocationNotFound] is the package's sentinel; the others are built by
    [errors.New] and [fmt.Errorf] with the payload their format prints. *)
Inductive Error (F : Type) :=
  | ErrLocationNotFound                          (* country not found *)
  | ErrNoData (i : nat)                          (* no data in dataset %d *)
  | ErrDecompression (i : nat) (cause : string)  (* decompression failed for dataset %d: %w *)
  | ErrInvalidJSON (i : nat) (cause : string)    (* invalid JSON in dataset %d: %w *)
  | ErrCloseReader (i : nat) (cause : string)    (* failed to close gzip reader for dataset %d: %w *)
  | ErrBadPolygon (cause : Error F)              (* bad polygon in geometry: %w *)
  | ErrNeedsPolygon                              (* needs Polygon or MultiPolygon *)
  | ErrTooFewPoints                              (* can't convert ring with less than 4 points *)
  | ErrUnclosedRing (p : Polygon F)              (* last coordinate not same as first for polygon: %+v *)
  | ErrMissingDataset                            (* missing parameter: geometry dataset *)
  | ErrDatasetNotFound (dataset : string)        (* dataset not found: %q *)
  | ErrNoGeometry (dataset : string).            (* no geometry found for dataset %q *)
Arguments ErrLocationNotFound {F}.
Arguments ErrNoData {F} i.
Arguments ErrDecompression {F} i cause.
Arguments ErrInvalidJSON {F} i cause.
Arguments ErrCloseReader {F} i cause.
Arguments ErrBadPolygon {F} cause.
Arguments ErrNeedsPolygon {F}.
Arguments ErrTooFewPoints {F}.
Arguments ErrUnclosedRing {F} p.
Arguments ErrMissingDataset {F}.
Arguments ErrDatasetNotFound {F} dataset.
Arguments ErrNoGeometry {F} dataset.

(** ** The libraries the package calls *)

(** A shape of the index is identified by the pointer to its [*s2.Polygon];
    the pointers allocated by one engine are numbered in allocation order. *)
Abbreviation Shape := nat (only parsing).

(** Package s2 (github.com/golang/geo/s2), as far as the package uses it.
    The operations are functions: they stand for the library on points
    whose coordinates are finite numbers, the only ones a GeoJSON document
    can write. On a vertex with a NaN coordinate, which an infinite latitude
    or longitude gives too, [s2.LoopFromPoints] panics inside the library:
    what is proved below of a conversion that returns is proved of finite
    coordinates. *)
Class S2 (F : Type) := {
  S2Point : Type;
  Loop : Type;
  S2Polygon : Type;
  zeroS2Point : S2Point;                           (* s2.Point{} *)
  PointFromLatLngDegrees : F → F → S2Point;        (* s2.PointFromLatLng(s2.LatLngFromDegrees(lat, lng)) *)
  LoopFromPoints : list S2Point → Loop;            (* s2.LoopFromPoints *)
  CapBoundRadiusDegrees : Loop → F;                (* l.CapBound().Radius().Degrees() *)
  Invert : Loop → Loop;                            (* l.Invert(), on the loop it is given *)
  PolygonFromLoops : list Loop → S2Polygon;        (* s2.PolygonFromLoops *)
  (* q.ContainingShapes(p) for a query over the index that holds the given
     polygons, with s2.VertexModelOpen *)
  ContainingShapes : list S2Polygon → S2Point → list Shape;
}.

(** Packages compress/gzip and encoding/json with orb's GeoJSON types. The
    decoder yields [tfc.Features], a slice of pointers [[]*geojson.Feature];
    [None] is a nil pointer, which is what a JSON null among the features
    decodes to. *)
Class Codec (F : Type) := {
  GzipReader : Type;
  gzipNewReader : list byte → string + GzipReader;      (* gzip.NewReader(br) *)
  (* json.NewDecoder(zr).Decode(&tfc) *)
  jsonDecode : GzipReader → string + list (option (Feature F));
  gzipClose : GzipReader → option string;               (* zr.Close() *)
}.

(** ** Winding of a ring *)

Section Planar.
Context {F : Type} {num : Scalar F}.

(** [func (p Point) Equal(point Point) bool] of orb: both coordinates [==]. *)
Definition Point_Equal (p q : Point F) : bool :=
  feqb (X p) (X q) && feqb (Y p) (Y q).

(** The two checks of [loopSliceFromPolygon] on a ring, as predicates: the
    first point [Equal] to the last, and at least four points. *)
Definition ringClosed (r : Ring F) : bool :=
  match r !! 0, r !! (length r - 1) with
  | Some r0, Some rl => Point_Equal r0 rl
  | _, _ => false
  end.

Definition ringAccepted (r : Ring F) : Prop :=
  4 ≤ length r ∧ ringClosed r = true.

(** One step of the loop of orb's [Ring.Orientation]. *)
Definition orientation_term (offsetX offsetY : F) (p q : Point F) : F :=
  fsub (fmul (fsub (X p) offsetX) (fsub (Y q) offsetY))
       (fmul (fsub (X q) offsetX) (fsub (Y p) offsetY)).

(** The sum [area] of orb v0.11.1's [func (r Ring) Orientation() Orientation]
    (ring.go; the library is a dependency in go.mod, its source is not part
    of this package):
<<
    area := 0.0
    offsetX := r[0][0]
    offsetY := r[0][1]
    for i := 1; i < len(r)-1; i++ {
        area += (r[i][0]-offsetX)*(r[i+1][1]-offsetY) -
                (r[i+1][0]-offsetX)*(r[i][1]-offsetY)
    }
>>
    It panics on the empty ring. *)
Definition Orientation_area (r : Ring F) : option F :=
  r0 ← r !! 0;
  let offsetX := X r0 in
  let offsetY := Y r0 in
  for_range 1 (length r - 1)
    (λ i area,
       ri ← r !! i;
       rj ← r !! (i + 1);
       Some (fadd area (orientation_term offsetX offsetY ri rj)))
    fzero.

(** [Orientation]: [CCW] is 1, [CW] is -1, and 0 is a ring without area. *)
Definition Orientation (r : Ring F) : option Z :=
  area ← Orientation_area r;
  Some (if fltb fzero area then 1%Z
        else if fltb area fzero then (-1)%Z
        else 0%Z).

(** [isClockwise] of the current source: [r.Orientation() == -1]. *)
Definition isClockwise (r : Ring F) : option bool :=
  o ← Orientation r;
  Some (bool_decide (o = (-1)%Z)).

(** What a loop [acc += term(l[i], l[i+1])] over the consecutive points of
    [l] computes, the additions in the order the loop makes them. *)
Fixpoint pairs_acc (term : Point F → Point F → F) (acc : F) (l : list (Point F)) : F :=
  match l with
  | p :: l' =>
      match l' with
      | q :: _ => pairs_acc term (fadd acc (term p q)) l'
      | [] => acc
      end
  | [] => acc
  end.
End Planar.

(** The earlier source file, rgeo.go, where it differs. *)
Module RgeoGo.
Section Planar.
Context {F : Type} {num : Scalar F}.

(** The sum [a] of [isClockwise]: the shoelace formula over consecutive
    coordinates, the last one paired with the first; each turn adds
    [(p2.X() - p1.X()) * (p1.Y() + p2.Y())]. *)
Definition shoelace_term (p1 p2 : Point F) : F :=
  fmul (fsub (X p2) (X p1)) (fadd (Y p1) (Y p2)).

Definition shoelace (r : Ring F) : option F :=
  let n := length r in
  for_range 0 n
    (λ i a,
       p1 ← r !! i;
       p2 ← r !! ((i + 1) mod n);
       Some (fadd a (shoelace_term p1 p2)))
    fzero.

(** [isClockwise] of rgeo.go: [return a > 0]. *)
Definition isClockwise (r : Ring F) : option bool :=
  a ← shoelace r;
  Some (fltb fzero a).
End Planar.
End RgeoGo.

(** ** Binary64 and the numbers it stands for *)

(** The rational number that a finite binary64 number stands for: its
    mantissa times a power of two. The infinities and NaN stand for none. *)
Definition float64_value (x : float) : option Q :=
  match Prim2SF x with
  | S754_zero _ => Some 0%Q
  | S754_finite s m e =>
      Some (Qmake ((if s then Zneg m else Zpos m) * 2 ^ Z.max e 0)
                  (Z.to_pos (2 ^ Z.max (- e) 0)))
  | _ => None
  end.

(** Exact arithmetic on rational numbers. *)
Definition Qc_ltb (a b : Qc) : bool :=
  match (a ?= b)%Qc with Lt => true | _ => false end.

Definition exactQc : Scalar Qc := {|
  fzero := 0%Qc;
  fconst := λ z, Q2Qc (inject_Z z);
  fadd := Qcplus;
  fsub := Qcminus;
  fmul := Qcmult;
  feqb := Qc_eq_bool;
  fltb := Qc_ltb;
|}.

(** A binary64 number as the program computes it, and beside it the exact
    rational result of the same operations, kept for as long as every
    binary64 result so far stands for the exact one: an operation whose
    binary64 result is rounded, or is not finite, loses it. The tests read
    the binary64 number only. *)
Definition tracked : Type := float * option Qc.

Definition track (x : float) : tracked := (x, Q2Qc <$> float64_value x).

Definition tracked_op (fop : float → float → float) (qop : Qc → Qc → Qc)
    (a b : tracked) : tracked :=
  let x := fop a.1 b.1 in
  (x, qa ← a.2; qb ← b.2; v ← float64_value x;
      if Qeq_bool v (qop qa qb) then Some (qop qa qb) else None).

Definition trackedFloat64 : Scalar tracked := {|
  fzero := track PrimFloat.zero;
  fconst := λ z, track (fconst (F := float) z);
  fadd := tracked_op PrimFloat.add Qcplus;
  fsub := tracked_op PrimFloat.sub Qcminus;
  fmul := tracked_op PrimFloat.mul Qcmult;
  feqb := λ a b, PrimFloat.eqb a.1 b.1;
  fltb := λ a b, PrimFloat.ltb a.1 b.1;
|}.

Definition trackPoint (p : Point float) : Point tracked := (track (X p), track (Y p)).

Definition exactly (res : option tracked) : bool :=
  match res with Some (_, Some _) => true | _ => false end.

(** Coordinates that are numbers: neither NaN nor an infinity. A GeoJSON
    document cannot write any other. *)
Definition pointFinite (p : Point float) : bool :=
  PrimFloat.is_finite (X p) && PrimFloat.is_finite (Y p).

Definition ringFinite (r : Ring float) : bool := forallb pointFinite r.

(** No operation rounds when binary64 evaluates the sum of
    [Ring.Orientation] and the shoelace sum of rgeo.go on the ring [r]: the
    coordinates are finite, and every difference, sum and product in the two
    loops is a finite binary64 number equal to the exact result. It is
    decided by running both loops. *)
Definition noRounding (r : Ring float) : bool :=
  ringFinite r
  && exactly (Orientation_area (num := trackedFloat64) (trackPoint <$> r))
  && exactly (RgeoGo.shoelace (num := trackedFloat64) (trackPoint <$> r)).

(** What [tracked] keeps: the binary64 number of the plain evaluation, and,
    when it records a rational, the rational of the exact evaluation, which
    that binary64 number stands for. *)
Definition tracks_float (t : tracked) (x : float) : Prop := t.1 = x.

Definition tracks_exact (t : tracked) (q : Qc) : Prop :=
  ∀ q', t.2 = Some q' → q' = q ∧ ∃ v, float64_value t.1 = Some v ∧ Qeq v q.

(** The rational point a binary64 point stands for. *)
Definition exactPoint (p : Point float) : Point Qc :=
  (default 0%Qc (Q2Qc <$> float64_value (X p)),
   default 0%Qc (Q2Qc <$> float64_value (Y p))).

(** The binary64 number [x] compares with zero as the rational [q] does:
    it is greater than zero exactly when [q] is, and less than zero exactly
    when [q] is. (A NaN is neither, like zero: the two tests read it so.) *)
Definition sameSign (x : float) (q : Qc) : bool :=
  Bool.eqb (PrimFloat.ltb PrimFloat.zero x) (Qc_ltb 0%Qc q)
  && Bool.eqb (PrimFloat.ltb x PrimFloat.zero) (Qc_ltb q 0%Qc).

(** Rounding changes the sign of neither sum on the ring [r]: the
    coordinates are finite, and the sum of [Ring.Orientation] and the
    shoelace sum of rgeo.go, evaluated in binary64, each have the sign of
    the same sum evaluated exactly on the numbers the coordinates stand
    for. *)
Definition signsKept (r : Ring float) : bool :=
  ringFinite r
  && match Orientation_area (num := float64) r,
           Orientation_area (num := exactQc) (exactPoint <$> r),
           RgeoGo.shoelace (num := float64) r,
           RgeoGo.shoelace (num := exactQc) (exactPoint <$> r) with
     | Some area, Some qarea, Some a, Some qa => sameSign area qarea && sameSign a qa
     | _, _, _, _ => false
     end.

(** Points of two arithmetics whose coordinates are related by [R]. *)
Definition related_points {F1 F2 : Type} (R : F1 → F2 → Prop)
    (p1 : Point F1) (p2 : Point F2) : Prop :=
  R (X p1) (X p2) ∧ R (Y p1) (Y p2).

Definition polygonFinite (p : Polygon float) : Prop :=
  Forall (Forall (λ q, pointFinite q = true)) p.

Definition geometryFinite (g : Geometry float) : Prop :=
  match g with
  | GPolygon p => polygonFinite p
  | GMultiPolygon mp => Forall polygonFinite mp
  | GOther _ => True
  end.

(** The error of the first ring of the polygon [p] that fails a check of
    [loopSliceFromPolygon]: too few points, or else first and last point
    not [Equal], which is reported with the polygon. *)
Definition rejection {F : Type} {num : Scalar F} (p : Polygon F) (e : Error F) : Prop :=
  ∃ i r, p !! i = Some r ∧ Forall ringAccepted (take i p)
         ∧ ((length r < 4 ∧ e = ErrTooFewPoints)
            ∨ (4 ≤ length r ∧ ringClosed r = false ∧ e = ErrUnclosedRing p)).

(** ** From rings to S2 polygons *)

Section Normalizer.
Context {F : Type} {num : Scalar F} {geo : S2 F}.

(** [pointFromCoord]: GeoJSON coordinates are [long, lat]. *)
Definition pointFromCoord (r : Point F) : S2Point :=
  PointFromLatLngDegrees (Y r) (X r).

(** The slice [pts] that [loopFromRing] fills: [make([]s2.Point, n-1)], then
    [pts[i] = pointFromCoord(c)] for [i] from 0 to [n-2]. [make] panics on
    the length -1. *)
Definition loopFromRing_pts (r : Ring F) (reverse : bool)
    : option (list S2Point) :=
  let n := length r in
  if decide (n = 0) then None else
  for_range 0 (n - 1)
    (λ i pts,
       c ← (if reverse then r !! (n - 1 - i) else r !! i);
       Some (<[i := pointFromCoord c]> pts))
    (replicate (n - 1) zeroS2Point).

(** [loopFromRing]; the same function in both source files. *)
Definition loopFromRing (r : Ring F) (reverse : bool) : option Loop :=
  pts ← loopFromRing_pts r reverse;
  Some (LoopFromPoints pts).

(** The body of the loop of [loopSliceFromPolygon] after the two checks:
    the loop of ring [r]. *)
Definition normalizedLoop (r : Ring F) : option Loop :=
  reverse ← isClockwise r;
  l ← loopFromRing r reverse;
  Some (if fltb (fconst 90) (CapBoundRadiusDegrees l) then Invert l else l).

(** The loop of [loopSliceFromPolygon] over the rings [rs] that remain, with
    the loops built so far; [p] is the polygon, printed by the second
    error. rgeo.go has the same loop, with the messages capitalized and its
    own [isClockwise]. *)
Fixpoint loopSliceFromPolygon_loop (p : Polygon F) (rs : list (Ring F))
    (loops : list Loop) : option (list Loop * option (Error F)) :=
  match rs with
  | [] => Some (loops, None)
  | r :: rs' =>
      let n := length r in
      if decide (n < 4) then Some ([], Some ErrTooFewPoints) else
      r0 ← r !! 0;
      rl ← r !! (n - 1);
      if negb (Point_Equal r0 rl) then Some ([], Some (ErrUnclosedRing p)) else
      l ← normalizedLoop r;
      loopSliceFromPolygon_loop p rs' (loops ++ [l])
  end.

Definition loopSliceFromPolygon (p : Polygon F)
    : option (list Loop * option (Error F)) :=
  loopSliceFromPolygon_loop p p [].

(** [polygonFromPolygon]: the polygon is built even when [err] is set. *)
Definition polygonFromPolygon (p : Polygon F)
    : option (option S2Polygon * option (Error F)) :=
  '(loops, err) ← loopSliceFromPolygon p;
  Some (Some (PolygonFromLoops loops), err).

Fixpoint polygonFromMultiPolygon_loop (ps : list (Polygon F))
    (loops : list Loop) : option (option S2Polygon * option (Error F)) :=
  match ps with
  | [] => Some (Some (PolygonFromLoops loops), None)
  | p :: ps' =>
      '(this, err) ← loopSliceFromPolygon p;
      match err with
      | Some e => Some (None, Some e)
      | None => polygonFromMultiPolygon_loop ps' (loops ++ this)
      end
  end.

Definition polygonFromMultiPolygon (p : MultiPolygon F)
    : option (option S2Polygon * option (Error F)) :=
  polygonFromMultiPolygon_loop p [].

Definition polygonFromGeometry (g : Geometry F)
    : option (option S2Polygon * option (Error F)) :=
  match g with
  | GOther _ => Some (None, Some ErrNeedsPolygon)
  | GPolygon t =>
      '(polygon, err) ← polygonFromPolygon t;
      match err with
      | Some e => Some (None, Some e)
      | None => Some (polygon, None)
      end
  | GMultiPolygon t =>
      '(polygon, err) ← polygonFromMultiPolygon t;
      match err with
      | Some e => Some (None, Some e)
      | None => Some (polygon, None)
      end
  end.
End Normalizer.

(** ** The engine *)

(** A dataset is a [func() []byte]: the name [getFunctionName] reads off the
    function by reflection, and the bytes a call returns. *)
Record Dataset := mkDataset {
  functionName : string;
  payload : list byte;
}.

Section Engine.
Context {F : Type} {num : Scalar F} {geo : S2 F} {dec : Codec F}.

(** [type Rgeo struct]. [index] lists the polygons added to the
    [*s2.ShapeIndex], the shape [i] being the [i]-th one; [query] is a view
    of [index] and has no state of its own. *)
Record Rgeo := mkRgeo {
  index : list S2Polygon;
  locs : gmap Shape Location;
  geoms : gmap string (gmap Shape (Geometry F));
}.

Record LocationWithGeometry := mkLocationWithGeometry {
  LLocation : Location;
  LGeometry : option (Geometry F);
}.

(** [LocationWithGeometry{}]. *)
Definition zeroLocationWithGeometry : LocationWithGeometry :=
  mkLocationWithGeometry emptyLocation None.

(** The loop of [New] over the features of one dataset. A failure leaves
    the function with [return nil, err]: it is the right injection here.
    [c.Geometry] dereferences the pointer [c]: on a nil feature it panics. *)
Fixpoint New_features (datasetName : string) (fs : list (option (Feature F)))
    (ret : Rgeo) : option (Rgeo + Error F) :=
  match fs with
  | [] => Some (inl ret)
  | c :: fs' =>
      c ← c;
      '(polygon, err) ← polygonFromGeometry (FGeometry c);
      match err with
      | Some e => Some (inr (ErrBadPolygon e))
      | None =>
          p ← polygon;
          let shape : Shape := length (index ret) in
          New_features datasetName fs'
            {| index := index ret ++ [p];
               locs := <[shape := getLocationStrings (FProperties c)]> (locs ret);
               geoms := <[datasetName :=
                            <[shape := FGeometry c]> (geoms ret !!! datasetName)]>
                          (geoms ret) |}
      end
  end.

(** The loop of [New] over the datasets, [i] being the index of the first
    of them. The collection [fc], to which the source appends the features
    of every dataset, is never read and is left out. *)
Fixpoint New_datasets (i : nat) (datasets : list Dataset) (ret : Rgeo)
    : option (option Rgeo * option (Error F)) :=
  match datasets with
  | [] => Some (Some ret, None)
  | dataset :: datasets' =>
      let br := payload dataset in
      if decide (length br = 0) then Some (None, Some (ErrNoData i)) else
      match gzipNewReader br with
      | inl err => Some (None, Some (ErrDecompression i err))
      | inr zr =>
      match jsonDecode zr with
      | inl err => Some (None, Some (ErrInvalidJSON i err))
      | inr tfc =>
      match gzipClose zr with
      | Some err => Some (None, Some (ErrCloseReader i err))
      | None =>
          let datasetName := functionName dataset in
          let ret :=
            match geoms ret !! datasetName with
            | Some _ => ret
            | None => {| index := index ret; locs := locs ret;
                         geoms := <[datasetName := ∅]> (geoms ret) |}
            end in
          res ← New_features datasetName tfc ret;
          match res with
          | inr e => Some (None, Some e)
          | inl ret' => New_datasets (S i) datasets' ret'
          end
      end end end
  end.

(** [func New(datasets ...func() []byte)], returning a pointer to the engine
    and an error. *)
Definition New (datasets : list Dataset)
    : option (option Rgeo * option (Error F)) :=
  New_datasets 0 datasets {| index := []; locs := ∅; geoms := ∅ |}.

(** The features a dataset holds, when its payload is not empty and is
    decompressed, decoded and closed without error. *)
Definition decodeDataset (d : Dataset) : option (list (option (Feature F))) :=
  if decide (payload d = []) then None else
  match gzipNewReader (payload d) with
  | inl _ => None
  | inr zr =>
      match jsonDecode zr with
      | inl _ => None
      | inr tfc => match gzipClose zr with Some _ => None | None => Some tfc end
      end
  end.

(** A geometry the normalizer accepts: a polygon or a multipolygon, all of
    whose rings pass the two checks. *)
Definition geometryWellFormed (g : Geometry F) : Prop :=
  match g with
  | GPolygon p => Forall ringAccepted p
  | GMultiPolygon mp => Forall (Forall ringAccepted) mp
  | GOther _ => False
  end.

(** A dataset [New] loads without error: it decodes, none of its features
    is a nil pointer, and all their geometries are well formed. *)
Definition datasetGood (d : Dataset) : Prop :=
  ∃ tfc, decodeDataset d = Some (Some <$> tfc)
         ∧ Forall (λ c, geometryWellFormed (FGeometry c)) tfc.

(** The features of the datasets in loading order, each with the name of its
    dataset; a nil pointer among them is no feature. *)
Definition allFeatures (datasets : list Dataset) : list (string * Feature F) :=
  concat (map (λ d, map (λ c, (functionName d, c))
                        (omap (λ c, c) (default [] (decodeDataset d))))
              datasets).

(** The engine holds exactly the features [fs]: the [k]-th shape is the
    polygon of the [k]-th feature, with its location in [locs] and its raw
    geometry in [geoms] under the name of its dataset. *)
Definition ingested (fs : list (string * Feature F)) (r : Rgeo) : Prop :=
  length (index r) = length fs
  ∧ ∀ k name c, fs !! k = Some (name, c) →
      (∃ p, index r !! k = Some p
            ∧ polygonFromGeometry (FGeometry c) = Some (Some p, None))
      ∧ locs r !! k = Some (getLocationStrings (FProperties c))
      ∧ ∃ g, geoms r !! name = Some g ∧ g !! k = Some (FGeometry c).

(** [r.locs[shape]]: a shape missing from the map reads as the zero
    [Location]. *)
Definition locationOf (r : Rgeo) (shape : Shape) : Location :=
  default emptyLocation (locs r !! shape).

(** One turn of the loop of [combineLocations]. *)
Definition combineLocations_step (r : Rgeo) (l : Location) (shape : Shape)
    : Location :=
  let loc := locationOf r shape in
  {| Country := firstNonEmpty [Country l; Country loc];
     CountryLong := firstNonEmpty [CountryLong l; CountryLong loc];
     CountryCode2 := firstNonEmpty [CountryCode2 l; CountryCode2 loc];
     CountryCode3 := firstNonEmpty [CountryCode3 l; CountryCode3 loc];
     Continent := firstNonEmpty [Continent l; Continent loc];
     Region := firstNonEmpty [Region l; Region loc];
     SubRegion := firstNonEmpty [SubRegion l; SubRegion loc];
     Province := firstNonEmpty [Province l; Province loc];
     ProvinceCode := firstNonEmpty [ProvinceCode l; ProvinceCode loc];
     County := firstNonEmpty [County l; County loc];
     City := firstNonEmpty [City l; City loc] |}.

Definition combineLocations (r : Rgeo) (s : list Shape) : Location :=
  foldl (combineLocations_step r) emptyLocation s.

Definition ReverseGeocode (r : Rgeo) (loc : Point F)
    : Location * option (Error F) :=
  let res := ContainingShapes (index r) (pointFromCoord loc) in
  if decide (length res = 0) then (emptyLocation, Some ErrLocationNotFound)
  else (combineLocations r res, None).

(** The last loop of [ReverseGeocodeWithGeometry]. *)
Fixpoint geometryOfFirst (dataset : string)
    (shpGeom : gmap Shape (Geometry F)) (out : LocationWithGeometry)
    (res : list Shape) : LocationWithGeometry * option (Error F) :=
  match res with
  | [] => (zeroLocationWithGeometry, Some (ErrNoGeometry dataset))
  | shp :: res' =>
      match shpGeom !! shp with
      | Some geom =>
          ({| LLocation := LLocation out; LGeometry := Some geom |}, None)
      | None => geometryOfFirst dataset shpGeom out res'
      end
  end.

Definition ReverseGeocodeWithGeometry (r : Rgeo) (loc : Point F)
    (dataset : string) : LocationWithGeometry * option (Error F) :=
  let res := ContainingShapes (index r) (pointFromCoord loc) in
  if decide (length res = 0)
  then (zeroLocationWithGeometry, Some ErrLocationNotFound)
  else if decide (dataset = "")
  then (zeroLocationWithGeometry, Some ErrMissingDataset)
  else match geoms r !! dataset with
       | None => (zeroLocationWithGeometry, Some (ErrDatasetNotFound dataset))
       | Some shpGeom =>
           let out := {| LLocation := combineLocations r res;
                         LGeometry := None |} in
           geometryOfFirst dataset shpGeom out res
       end.
End Engine.

Arguments Rgeo F {_}.
Arguments LocationWithGeometry F : clear implicits.

(** ** The names of the datasets *)

(** [strings.Compare]: -1, 0 or 1, the strings compared byte by byte. *)
Definition strings_Compare (a b : string) : Z :=
  match String.compare a b with
  | Lt => (-1)%Z
  | Eq => 0%Z
  | Gt => 1%Z
  end.

(** [sort.Slice(x, less)] of package sort, by its contract: the elements of
    [x] reordered so that [less] never holds from an element to one placed
    before it. The order of elements that [less] does not tell apart is not
    fixed by the package; here it is the one of a merge sort. *)
Definition sort_Slice {A : Type} (less : A → A → bool) (x : list A) : list A :=
  merge_sort (λ a b, Is_true (negb (less b a))) x.

Section Names.
Context {F : Type} {num : Scalar F} {geo : S2 F}.

(** [DatasetNames] when the [range] over [r.geoms] yields the keys in the
    order [keys]: they are appended to [names], which is then sorted with
    [strings.Compare(names[i], names[j]) < 0]. *)
Definition DatasetNames_ranged (keys : list string) : list string :=
  sort_Slice (λ a b, bool_decide (strings_Compare a b < 0)%Z) keys.

(** [func (r *Rgeo) DatasetNames() []string]. Go leaves the order of a range
    over a map open; [map_to_list] is one such order. *)
Definition DatasetNames (r : Rgeo F) : list string :=
  DatasetNames_ranged (map fst (map_to_list (geoms r))).

(** The stores hold nothing but the features [fs] and the dataset names
    [names]: a location only for a shape of [fs], a geometry only under the
    dataset of its feature, a group exactly for each name. *)
Definition storedOnly (fs : list (string * Feature F)) (names : list string)
    (r : Rgeo F) : Prop :=
  (∀ k, is_Some (locs r !! k) → k < length fs)
  ∧ (∀ name g k geom, geoms r !! name = Some g → g !! k = Some geom →
       ∃ c, fs !! k = Some (name, c) ∧ geom = FGeometry c)
  ∧ (∀ name, is_Some (geoms r !! name) ↔ name ∈ names).
End Names.

(** ** The location of rgeo.go *)

(** rgeo.go has no county: its [Location] has ten fields, its [String]
    renders neither city nor province and has no case for the empty
    location. *)
Module RgeoGoLocation.
Record Location := mkLocation {
  Country : string;
  CountryLong : string;
  CountryCode2 : string;
  CountryCode3 : string;
  Continent : string;
  Region : string;
  SubRegion : string;
  Province : string;
  ProvinceCode : string;
  City : string;
}.

(** [func (l Location) String() string] of rgeo.go. *)
Definition Location_String (l : Location) : string :=
  let ret := "<Location>" in
  let ret :=
    if decide (Country l ≠ "") then ret +:+ (" " +:+ Country l)
    else if decide (CountryLong l ≠ "") then ret +:+ (" " +:+ CountryLong l)
    else ret in
  let ret :=
    if decide (CountryCode3 l ≠ "") then ret +:+ (" (" +:+ CountryCode3 l +:+ ")")
    else if decide (CountryCode2 l ≠ "") then ret +:+ (" (" +:+ CountryCode2 l +:+ ")")
    else ret in
  let ret :=
    if decide (String.length "<Location>" < String.length ret)%nat then ret +:+ "," else ret in
  if decide (Continent l ≠ "") then ret +:+ (" " +:+ Continent l)
  else if decide (Region l ≠ "") then ret +:+ (" " +:+ Region l)
  else if decide (SubRegion l ≠ "") then ret +:+ (" " +:+ SubRegion l)
  else ret.

(** [getLocationStrings] of rgeo.go. *)
Definition getLocationStrings {F} (p : gmap string (Value F)) : Location :=
  {| Country := getPropertyString p ["ADMIN"; "admin"];
     CountryLong := getPropertyString p ["FORMAL_EN"];
     CountryCode2 := getPropertyString p ["ISO_A2"];
     CountryCode3 := getPropertyString p ["ISO_A3"];
     Continent := getPropertyString p ["CONTINENT"];
     Region := getPropertyString p ["REGION_UN"];
     SubRegion := getPropertyString p ["SUBREGION"];
     Province := getPropertyString p ["name"];
     ProvinceCode := getPropertyString p ["iso_3166_2"];
     City := TrimSuffix (getPropertyString p ["name_conve"]) "2" |}.

(** One turn of the loop of [combineLocations] of rgeo.go: ten assignments
    [l.Field = firstNonEmpty(l.Field, loc.Field)], each reading the one
    field it writes. *)
Definition combineLocations_step (locs : gmap nat Location) (l : Location)
    (shape : nat) : Location :=
  let loc := default (mkLocation "" "" "" "" "" "" "" "" "" "") (locs !! shape) in
  {| Country := firstNonEmpty [Country l; Country loc];
     CountryLong := firstNonEmpty [CountryLong l; CountryLong loc];
     CountryCode2 := firstNonEmpty [CountryCode2 l; CountryCode2 loc];
     CountryCode3 := firstNonEmpty [CountryCode3 l; CountryCode3 loc];
     Continent := firstNonEmpty [Continent l; Continent loc];
     Region := firstNonEmpty [Region l; Region loc];
     SubRegion := firstNonEmpty [SubRegion l; SubRegion loc];
     Province := firstNonEmpty [Province l; Province loc];
     ProvinceCode := firstNonEmpty [ProvinceCode l; ProvinceCode loc];
     City := firstNonEmpty [City l; City loc] |}.

Definition combineLocations (locs : gmap nat Location) (s : list nat) : Location :=
  foldl (combineLocations_step locs) (mkLocation "" "" "" "" "" "" "" "" "" "") s.
End RgeoGoLocation.

(** The fields of a current [Location] that rgeo.go has. *)
Definition withoutCounty (l : Location) : RgeoGoLocation.Location :=
  {| RgeoGoLocation.Country := Country l;
     RgeoGoLocation.CountryLong := CountryLong l;
     RgeoGoLocation.CountryCode2 := CountryCode2 l;
     RgeoGoLocation.CountryCode3 := CountryCode3 l;
     RgeoGoLocation.Continent := Continent l;
     RgeoGoLocation.Region := Region l;
     RgeoGoLocation.SubRegion := SubRegion l;
     RgeoGoLocation.Province := Province l;
     RgeoGoLocation.ProvinceCode := ProvinceCode l;
     RgeoGoLocation.City := City l |}.

(** ** Sample data

    A small implementation of the two library interfaces and a few rings and
    datasets, on which the definitions above can be run. *)

Module Sample.
Local Open Scope float_scope.

(** Largest and smallest longitude among points given as (lat, lng). *)
Definition maxLng (pts : list (float * float)) : float :=
  foldr (λ p m, if PrimFloat.ltb m p.2 then p.2 else m) (-180) pts.
Definition minLng (pts : list (float * float)) : float :=
  foldr (λ p m, if PrimFloat.ltb p.2 m then p.2 else m) 180 pts.

(** Points are kept as (lat, lng); a loop is its points and whether it was
    inverted; the radius of its cap is half its span in longitude; every
    polygon of an index contains every point. *)
Definition s2 : S2 float := {|
  S2Point := float * float;
  Loop := list (float * float) * bool;
  S2Polygon := list (list (float * float) * bool);
  zeroS2Point := (0, 0);
  PointFromLatLngDegrees := λ lat lng, (lat, lng);
  LoopFromPoints := λ pts, (pts, false);
  CapBoundRadiusDegrees := λ l, (maxLng l.1 - minLng l.1) / 2;
  Invert := λ l, (l.1, negb l.2);
  PolygonFromLoops := λ loops, loops;
  ContainingShapes := λ idx _, seq 0 (length idx);
|}.

(** A counter-clockwise square, the same square clockwise, a ring that is
    not closed, a ring of three points and a ring around most of the
    globe. *)
Definition square : Ring float := [(0, 0); (10, 0); (10, 10); (0, 10); (0, 0)].
Definition squareCW : Ring float := [(0, 0); (0, 10); (10, 10); (10, 0); (0, 0)].
Definition unclosed : Ring float := [(0, 0); (10, 0); (10, 10); (0, 10); (0, 5)].
Definition short : Ring float := [(0, 0); (10, 0); (0, 0)].
Definition wide : Ring float := [(-170, 0); (170, 0); (170, 10); (-170, 10); (-170, 0)].

(** A thin clockwise triangle at latitude 64; its second latitude is the
    next binary64 number after 64. *)
Definition sliver : Ring float :=
  [(0, 64); (128, 0x1.0000000000001p+6); (128, 64); (0, 64)].

(** A clockwise triangle whose coordinates are tenths, none of which is a
    binary64 number: each stands for the nearest one. *)
Definition tenths : Ring float :=
  [(0x1.999999999999ap-4, 0x1.999999999999ap-3);
   (0x1.3333333333333p-2, 0x1.6666666666666p-1);
   (0x1.199999999999ap+0, 0x1.999999999999ap-2);
   (0x1.999999999999ap-4, 0x1.999999999999ap-3)].

(** A closed ring that swings out to longitude -2^53 and back. *)
Definition swing : Ring float :=
  [(0, 0); (1, 0); (0, 1); (-0x1p+53, 0); (0, 1); (0.5, 0); (0, 0)].

Definition testland : Feature float :=
  mkFeature (GPolygon [square])
    {[ "ADMIN" := VString "Testland"; "ISO_A3" := VString "TST";
       "POP_EST" := VNumber 1000 ]}.
Definition testshire : Feature float :=
  mkFeature (GMultiPolygon [[squareCW]])
    {[ "name" := VString "Testshire"; "admin" := VString "Testland (adm)";
       "iso_3166_2" := VString "TS-SH" ]}.
Definition broken : Feature float :=
  mkFeature (GPolygon [square; unclosed]) {[ "ADMIN" := VString "Nowhere" ]}.
Definition pointFeature : Feature float :=
  mkFeature (GOther "Point") {[ "ADMIN" := VString "Nowhere" ]}.

(** A payload is two bytes of gzip magic and one byte that selects the
    feature collection it decodes to. *)
Definition codec : Codec float := {|
  GzipReader := list byte;
  gzipNewReader := λ br,
    match br with
    | x1f :: x8b :: rest => inr rest
    | _ => inl "gzip: invalid header"%string
    end;
  jsonDecode := λ zr,
    match zr with
    | [x00] => inr []
    | [x01] => inr [Some testland]
    | [x02] => inr [Some testshire]
    | [x03] => inr [Some testland; Some broken]
    | [x04] => inr [Some pointFeature]
    | [x05] => inr [None]
    | [x06] => inr [Some broken; None]
    | _ => inl "unexpected end of JSON input"%string
    end;
  gzipClose := λ _, None;
|}.

Definition Countries : Dataset := mkDataset "rgeo.Countries110" [x1f; x8b; x01].
Definition Provinces : Dataset := mkDataset "rgeo.Provinces10" [x1f; x8b; x02].
Definition Empty : Dataset := mkDataset "rgeo.Empty" [].
Definition NotGzip : Dataset := mkDataset "rgeo.NotGzip" [x00; x01].
Definition NotJSON : Dataset := mkDataset "rgeo.NotJSON" [x1f; x8b; xff].
Definition Broken : Dataset := mkDataset "rgeo.Broken" [x1f; x8b; x03].
Definition Points : Dataset := mkDataset "rgeo.Points" [x1f; x8b; x04].
Definition NoFeatures : Dataset := mkDataset "rgeo.NoFeatures" [x1f; x8b; x00].
(** The gzip of a feature collection whose only feature is a JSON null,
    [{"type":"FeatureCollection","features":[null]}], and of one where a
    null follows a feature with an unclosed ring. *)
Definition NullFeature : Dataset := mkDataset "rgeo.NullFeature" [x1f; x8b; x05].
Definition BrokenThenNull : Dataset := mkDataset "rgeo.BrokenThenNull" [x1f; x8b; x06].

(** The engine [New(Countries, Provinces)] builds, written out. *)
Definition engine : Rgeo float (geo := s2) :=
  match New (geo := s2) (dec := codec) [Countries; Provinces] with
  | Some (Some r, _) => r
  | _ => mkRgeo (geo := s2) [] ∅ ∅
  end.

(** The engines [New()] and [New(Countries, NoFeatures)] build. *)
Definition emptyEngine : Rgeo float (geo := s2) :=
  match New (geo := s2) (dec := codec) [] with
  | Some (Some r, _) => r
  | _ => mkRgeo (geo := s2) [] ∅ ∅
  end.
(** The engine [New(Countries, Countries)] builds: one dataset loaded twice. *)
Definition engineTwice : Rgeo float (geo := s2) :=
  match New (geo := s2) (dec := codec) [Countries; Countries] with
  | Some (Some r, _) => r
  | _ => mkRgeo (geo := s2) [] ∅ ∅
  end.
Definition engineNoFeatures : Rgeo float (geo := s2) :=
  match New (geo := s2) (dec := codec) [Countries; NoFeatures] with
  | Some (Some r, _) => r
  | _ => mkRgeo (geo := s2) [] ∅ ∅
  end.
End Sample.

(** * Properties *)

(** ** Merging the locations of the matches *)

Lemma firstNonEmpty_pair (a b : string) :
  firstNonEmpty [a; b] = if decide (a = "") then b else a.
Proof. simpl. repeat case_decide; congruence. Qed.

Lemma firstNonEmpty_cons_empty (s : list string) : firstNonEmpty ("" :: s) = firstNonEmpty s.
Proof. reflexivity. Qed.

Lemma firstNonEmpty_single (a : string) : firstNonEmpty [a] = a.
Proof. destruct (decide (a = "")) as [->|Ha]; [done|]. simpl. by case_decide. Qed.

Lemma firstNonEmpty_cons_set (a : string) (s : list string) :
  a ≠ "" → firstNonEmpty (a :: s) = a.
Proof. intros Ha. simpl. case_decide; congruence. Qed.

(** [firstNonEmpty] returns the first entry that is not empty. *)
Lemma firstNonEmpty_first (s : list string) (j : nat) (v : string) :
  s !! j = Some v → v ≠ "" → (∀ j' w, j' < j → s !! j' = Some w → w = "") →
  firstNonEmpty s = v.
Proof.
  revert j. induction s as [|a s IH]; intros j Hj Hv Hbefore; [done|].
  destruct j as [|j]; simpl in Hj.
  - simplify_eq. by apply firstNonEmpty_cons_set.
  - rewrite (Hbefore 0 a); [|lia|done]. rewrite firstNonEmpty_cons_empty.
    apply (IH j); [done..|]. intros j' w Hlt Hw. apply (Hbefore (S j') w); [lia|done].
Qed.

Lemma firstNonEmpty_none (s : list string) :
  (∀ w, w ∈ s → w = "") → firstNonEmpty s = "".
Proof.
  induction s as [|a s IH]; intros Hall; [done|].
  rewrite (Hall a) by set_solver. rewrite firstNonEmpty_cons_empty.
  apply IH. intros w Hw. apply Hall. set_solver.
Qed.

Section Combine.
Context {F : Type} {num : Scalar F} {geo : S2 F}.

Lemma combineLocations_step_field (r : Rgeo F) (field : Location → string) :
  field ∈ Location_fields → ∀ l shape,
  field (combineLocations_step r l shape)
  = firstNonEmpty [field l; field (locationOf r shape)].
Proof.
  unfold Location_fields. intros Hin l shape.
  repeat (apply elem_of_cons in Hin as [-> | Hin]; [reflexivity|]).
  by apply elem_of_nil in Hin.
Qed.

Lemma foldl_combine_field (r : Rgeo F) (field : Location → string) :
  field ∈ Location_fields → ∀ s l,
  field (foldl (combineLocations_step r) l s)
  = firstNonEmpty (field l :: map (λ shape, field (locationOf r shape)) s).
Proof.
  intros Hin s. induction s as [|shape s IH]; intros l.
  - symmetry. apply firstNonEmpty_single.
  - cbn [foldl map]. rewrite IH, (combineLocations_step_field r field Hin).
    rewrite firstNonEmpty_pair. case_decide as Hl.
    + rewrite Hl, firstNonEmpty_cons_empty. done.
    + rewrite !firstNonEmpty_cons_set; done.
Qed.

Lemma combineLocations_field (r : Rgeo F) (field : Location → string) (s : list Shape) :
  field ∈ Location_fields →
  field (combineLocations r s) = firstNonEmpty (map (λ shape, field (locationOf r shape)) s).
Proof.
  intros Hin. unfold combineLocations. rewrite foldl_combine_field by done.
  assert (field emptyLocation = "") as ->.
  { unfold Location_fields in Hin.
    repeat (apply elem_of_cons in Hin as [-> | Hin]; [reflexivity|]).
    by apply elem_of_nil in Hin. }
  apply firstNonEmpty_cons_empty.
Qed.

(** Two locations with the same eleven fields are equal. *)
Lemma Location_ext (a b : Location) :
  (∀ field, field ∈ Location_fields → field a = field b) → a = b.
Proof.
  intros Hf. destruct a, b.
  pose proof (Hf Country) as H1. pose proof (Hf CountryLong) as H2.
  pose proof (Hf CountryCode2) as H3. pose proof (Hf CountryCode3) as H4.
  pose proof (Hf Continent) as H5. pose proof (Hf Region) as H6.
  pose proof (Hf SubRegion) as H7. pose proof (Hf Province) as H8.
  pose proof (Hf ProvinceCode) as H9. pose proof (Hf County) as H10.
  pose proof (Hf City) as H11. unfold Location_fields in *. simpl in *.
  f_equal; [apply H1|apply H2|apply H3|apply H4|apply H5|apply H6|apply H7
           |apply H8|apply H9|apply H10|apply H11];
    repeat first [apply list_elem_of_here | apply list_elem_of_further].
Qed.

Lemma combineLocations_single (r : Rgeo F) (shape : Shape) :
  combineLocations r [shape] = locationOf r shape.
Proof.
  apply Location_ext. intros field Hin.
  rewrite combineLocations_field by done. apply firstNonEmpty_single.
Qed.

Lemma combineLocations_prefix_kept (r : Rgeo F) (field : Location → string)
    (s : list Shape) (k : nat) :
  field ∈ Location_fields →
  field (combineLocations r (take k s)) ≠ "" →
  field (combineLocations r s) = field (combineLocations r (take k s)).
Proof.
  intros Hin. rewrite !combineLocations_field by done.
  rewrite <- (take_drop k s) at 2. rewrite map_app.
  generalize (map (λ shape, field (locationOf r shape)) (take k s)) as pre.
  generalize (map (λ shape, field (locationOf r shape)) (drop k s)) as post.
  intros post pre. induction pre as [|a pre IH]; [done|].
  intros Hne. simpl in *. case_decide; [done|]. by apply IH.
Qed.

Lemma combineLocations_step_override (r : Rgeo F) (l : Location) (shape : Shape) :
  combineLocations_step r l shape = overrideLeft l (locationOf r shape).
Proof.
  unfold combineLocations_step, overrideLeft, keepOr.
  f_equal; apply firstNonEmpty_pair.
Qed.

Lemma combineLocations_override (r : Rgeo F) (s : list Shape) :
  combineLocations r s = foldl overrideLeft emptyLocation (map (locationOf r) s).
Proof.
  unfold combineLocations. generalize emptyLocation as l.
  induction s as [|shape s IH]; intros l; [done|].
  cbn [foldl map]. by rewrite IH, combineLocations_step_override.
Qed.

(** C1. When the index returns the non-empty list [res] for a point,
    [ReverseGeocode] returns, without error, the fold of the matches'
    locations in the order of [res] under left-biased per-field override.
    For every field: it is the value of the first match whose value is not
    empty, it is empty when no match has a value, and a value set after the
    first [k] matches is the final one. With one match the result is that
    shape's location. *)
Theorem ReverseGeocode_left_biased_fold (r : Rgeo F) (loc : Point F) (res : list Shape) :
  ContainingShapes (index r) (pointFromCoord loc) = res →
  res ≠ [] →
  ReverseGeocode r loc
    = (foldl overrideLeft emptyLocation (map (locationOf r) res), None)
  ∧ (∀ field, field ∈ Location_fields →
      (∀ j shape, res !! j = Some shape →
         field (locationOf r shape) ≠ "" →
         (∀ j' shape', j' < j → res !! j' = Some shape' →
            field (locationOf r shape') = "") →
         field (ReverseGeocode r loc).1 = field (locationOf r shape))
      ∧ ((∀ shape, shape ∈ res → field (locationOf r shape) = "") →
         field (ReverseGeocode r loc).1 = "")
      ∧ (∀ k, field (combineLocations r (take k res)) ≠ "" →
         field (ReverseGeocode r loc).1 = field (combineLocations r (take k res))))
  ∧ (∀ shape, res = [shape] → ReverseGeocode r loc = (locationOf r shape, None)).
Proof.
  intros Hres Hne.
  assert (ReverseGeocode r loc = (combineLocations r res, None)) as Heq.
  { unfold ReverseGeocode. rewrite Hres. case_decide as Hlen; [|done].
    by destruct res. }
  rewrite Heq. cbn [fst]. split; [by rewrite combineLocations_override|].
  split.
  - intros field Hin. rewrite combineLocations_field by done.
    split; [|split].
    + intros j shape Hj Hset Hbefore.
      apply (firstNonEmpty_first _ j); [by rewrite list_lookup_fmap, Hj|done|].
      intros j' w Hlt Hw. rewrite list_lookup_fmap in Hw.
      destruct (res !! j') as [shape'|] eqn:Hj'; [|done].
      simpl in Hw. simplify_eq. by apply (Hbefore j').
    + intros Hall. apply firstNonEmpty_none. intros w Hw.
      apply list_elem_of_fmap in Hw as (shape & -> & Hshape). by apply Hall.
    + intros k Hk. rewrite <- combineLocations_field by done.
      by apply combineLocations_prefix_kept.
  - intros shape ->. by rewrite combineLocations_single.
Qed.

Example ReverseGeocode_no_match (r : Rgeo F) (loc : Point F) :
  ContainingShapes (index r) (pointFromCoord loc) = [] →
  ReverseGeocode r loc = (emptyLocation, Some ErrLocationNotFound).
Proof. intros Hres. unfold ReverseGeocode. by rewrite Hres. Qed.
End Combine.

Lemma ReverseGeocode_left_biased_fold_witness :
  ContainingShapes (S2 := Sample.s2) (index Sample.engine)
    (pointFromCoord (geo := Sample.s2) (5, 5)%float) = [0; 1]
  ∧ [0; 1] ≠ ([] : list Shape)
  ∧ ReverseGeocode (geo := Sample.s2) Sample.engine (5, 5)%float
    = (foldl overrideLeft emptyLocation
         (map (locationOf (geo := Sample.s2) Sample.engine) [0; 1]), None).
Proof.
  split; [vm_compute; reflexivity|]. split; [discriminate|].
  apply (ReverseGeocode_left_biased_fold (geo := Sample.s2) Sample.engine
           (5, 5)%float [0; 1]); [vm_compute; reflexivity | discriminate].
Defined.

(** ** Reading properties *)

Section Properties.
Context {F : Type}.

Lemma getPropertyString_loop_cons (m : gmap string (Value F)) (k : string)
    (keys : list string) (s0 : string) :
  getPropertyString_loop m (k :: keys) s0
  = match m !! k with
    | Some (VString s) => s
    | _ => getPropertyString_loop m keys ""
    end.
Proof. simpl. by destruct (m !! k) as [[]|]. Qed.

Lemma getPropertyString_cons (m : gmap string (Value F)) (k : string) (keys : list string) :
  getPropertyString m (k :: keys)
  = match m !! k with
    | Some (VString s) => s
    | _ => getPropertyString m keys
    end.
Proof. apply getPropertyString_loop_cons. Qed.

Lemma getPropertyString_skip (m : gmap string (Value F)) (k : string) (keys : list string) :
  (∀ s, m !! k ≠ Some (VString s)) →
  getPropertyString m (k :: keys) = getPropertyString m keys.
Proof.
  intros Hk. rewrite getPropertyString_cons.
  destruct (m !! k) as [[]|]; try done. by destruct (Hk s).
Qed.

(** C9. [getPropertyString] returns the value of the first candidate key
    whose value is a string; it returns the empty string when no candidate
    key holds a string; and a key whose value is not a string can be deleted
    from the map without changing the result for any list of candidates. *)
Theorem getPropertyString_first_string (m : gmap string (Value F)) (keys : list string) :
  (∀ j k s, keys !! j = Some k → m !! k = Some (VString s) →
     (∀ j' k' s', j' < j → keys !! j' = Some k' → m !! k' ≠ Some (VString s')) →
     getPropertyString m keys = s)
  ∧ ((∀ k s, k ∈ keys → m !! k ≠ Some (VString s)) → getPropertyString m keys = "")
  ∧ (∀ k v, m !! k = Some v → (∀ s, v ≠ VString s) →
     getPropertyString m keys = getPropertyString (delete k m) keys).
Proof.
  split; [|split].
  - induction keys as [|k0 keys IH]; intros j k s Hj Hk Hbefore; [done|].
    destruct j as [|j]; simpl in Hj.
    + simplify_eq. by rewrite getPropertyString_cons, Hk.
    + rewrite getPropertyString_skip.
      * apply (IH j k); [done..|]. intros j' k' s' Hlt. apply (Hbefore (S j')). lia.
      * intros s'. apply (Hbefore 0); [lia|done].
  - induction keys as [|k0 keys IH]; intros Hall; [done|].
    rewrite getPropertyString_skip.
    + apply IH. intros k s Hin. apply Hall. by right.
    + intros s. apply Hall. by left.
  - intros k v Hk Hv. induction keys as [|k0 keys IH]; [done|].
    rewrite !getPropertyString_cons, IH.
    destruct (decide (k0 = k)) as [->|Hne].
    + rewrite lookup_delete_eq, Hk. destruct v; try done. by destruct (Hv s).
    + by rewrite lookup_delete_ne.
Qed.
End Properties.

Example getPropertyString_sample :
  getPropertyString (FProperties Sample.testshire) ["ADMIN"; "admin"] = "Testland (adm)"
  ∧ getPropertyString (FProperties Sample.testland) ["POP_EST"; "ADMIN"] = "Testland"
  ∧ getPropertyString (FProperties Sample.testland) ["POP_EST"] = ""
  ∧ getPropertyString (FProperties Sample.testland) [] = "".
Proof. by vm_compute. Qed.

(** ** Rendering a location *)

Example Location_String_empty :
  Location_String emptyLocation = "<Location> Empty Location".
Proof. reflexivity. Qed.

Example Location_String_full :
  Location_String
    {| Country := "Testland"; CountryLong := "Republic of Testland";
       CountryCode2 := "TS"; CountryCode3 := "TST"; Continent := "Europe";
       Region := "Europe"; SubRegion := "Western Europe";
       Province := "Testshire"; ProvinceCode := "TS-SH"; County := "";
       City := "Testville" |}
  = "<Location> Testville, Testshire, Testland (TST), Europe".
Proof. reflexivity. Qed.

(** C8, on the code: the location with country Testland and code TST renders
    with a comma after the code, although no continent, region or subregion
    follows it. *)
Theorem Location_String_trailing_comma :
  Location_String
    {| Country := "Testland"; CountryLong := ""; CountryCode2 := "";
       CountryCode3 := "TST"; Continent := ""; Region := ""; SubRegion := "";
       Province := ""; ProvinceCode := ""; County := ""; City := "" |}
  = "<Location> Testland (TST),".
Proof. reflexivity. Qed.

Example Location_String_city_only :
  Location_String
    {| Country := ""; CountryLong := ""; CountryCode2 := "";
       CountryCode3 := ""; Continent := ""; Region := ""; SubRegion := "";
       Province := ""; ProvinceCode := ""; County := ""; City := "Testville" |}
  = "<Location> Testville,,".
Proof. reflexivity. Qed.

Lemma string_length_app (a b : string) :
  String.length (a +:+ b) = String.length a + String.length b.
Proof.
  induction a as [|c a IH]; [done|].
  change (String c a +:+ b) with (String c (a +:+ b)).
  cbn [String.length]. by rewrite IH.
Qed.

(** Whenever a city, a province, a country name or a country code is
    rendered and no continent, region or subregion is set, the rendering
    ends with a comma. *)
Lemma Location_String_comma_without_continent (l : Location) :
  Continent l = "" → Region l = "" → SubRegion l = "" →
  City l ≠ "" ∨ Province l ≠ "" ∨ Country l ≠ "" ∨ CountryLong l ≠ ""
  ∨ CountryCode3 l ≠ "" ∨ CountryCode2 l ≠ "" →
  ∃ body, Location_String l = body +:+ ",".
Proof.
  intros Hc Hr Hs Hsome. unfold Location_String.
  destruct (decide (l = emptyLocation)) as [->|_].
  { simpl in Hsome. by destruct Hsome as [?|[?|[?|[?|[?|?]]]]]. }
  rewrite Hc, Hr, Hs.
  assert (∀ x, x ≠ "" → 0 < String.length x) as Hpos.
  { intros [|c x] Hx; [done|]. simpl. lia. }
  repeat match goal with
         | |- context [decide (?f l ≠ "")] => destruct (decide (f l ≠ "")) as [?%Hpos|?%dec_stable]
         end;
    (match goal with
     | |- context [decide (?a < ?b)] =>
         destruct (decide (a < b)) as [_|Hlen];
         [ destruct (decide ("" ≠ "")); [done|]; eauto
         | exfalso; rewrite ?string_length_app in Hlen; simpl in Hlen;
           destruct Hsome as [?|[?|[?|[?|[?|?]]]]]; try congruence; lia ]
     end).
Qed.

(** ** Queries with geometry *)

Section Query.
Context {F : Type} {num : Scalar F} {geo : S2 F}.

Lemma geometryOfFirst_found (dataset : string) (shpGeom : gmap Shape (Geometry F))
    (out : LocationWithGeometry F) (res : list Shape) (j : nat) (shp : Shape)
    (geom : Geometry F) :
  res !! j = Some shp → shpGeom !! shp = Some geom →
  (∀ j' shp', j' < j → res !! j' = Some shp' → shpGeom !! shp' = None) →
  geometryOfFirst dataset shpGeom out res
  = ({| LLocation := LLocation out; LGeometry := Some geom |}, None).
Proof.
  revert j. induction res as [|shp0 res IH]; intros j Hj Hgeom Hbefore; [done|].
  destruct j as [|j]; simpl in Hj.
  - simplify_eq. simpl. by rewrite Hgeom.
  - simpl. rewrite (Hbefore 0 shp0); [|lia|done].
    apply (IH j); [done..|]. intros j' shp' Hlt. apply (Hbefore (S j')). lia.
Qed.

Lemma geometryOfFirst_none (dataset : string) (shpGeom : gmap Shape (Geometry F))
    (out : LocationWithGeometry F) (res : list Shape) :
  (∀ shp, shp ∈ res → shpGeom !! shp = None) →
  geometryOfFirst dataset shpGeom out res
  = (zeroLocationWithGeometry, Some (ErrNoGeometry dataset)).
Proof.
  induction res as [|shp0 res IH]; intros Hall; [done|].
  simpl. rewrite (Hall shp0) by (by left). apply IH. intros shp Hin. apply Hall. by right.
Qed.

Lemma geometryOfFirst_error_zero (dataset : string) (shpGeom : gmap Shape (Geometry F))
    (out : LocationWithGeometry F) (res : list Shape) (e : Error F) :
  (geometryOfFirst dataset shpGeom out res).2 = Some e →
  (geometryOfFirst dataset shpGeom out res).1 = zeroLocationWithGeometry.
Proof.
  induction res as [|shp0 res IH]; [done|].
  simpl. by destruct (shpGeom !! shp0).
Qed.

(** C7, as the code has it. The empty query result is tested first: a point
    in no shape gives the location-not-found error whatever the dataset name.
    For a point with matches [res]: the empty name gives the
    missing-parameter error; a name that is not a key of [geoms] gives the
    dataset-not-found error; otherwise the result is the merged location
    with the geometry of the first shape of [res] that the dataset holds,
    and the no-geometry error when it holds none of them. *)
Theorem ReverseGeocodeWithGeometry_cases (r : Rgeo F) (loc : Point F) (dataset : string) :
  let res := ContainingShapes (index r) (pointFromCoord loc) in
  let result := ReverseGeocodeWithGeometry r loc dataset in
  (res = [] → result = (zeroLocationWithGeometry, Some ErrLocationNotFound))
  ∧ (res ≠ [] → dataset = "" →
     result = (zeroLocationWithGeometry, Some ErrMissingDataset))
  ∧ (res ≠ [] → dataset ≠ "" → geoms r !! dataset = None →
     result = (zeroLocationWithGeometry, Some (ErrDatasetNotFound dataset)))
  ∧ (∀ shpGeom, res ≠ [] → dataset ≠ "" → geoms r !! dataset = Some shpGeom →
     (∀ j shp geom, res !! j = Some shp → shpGeom !! shp = Some geom →
        (∀ j' shp', j' < j → res !! j' = Some shp' → shpGeom !! shp' = None) →
        result = ({| LLocation := combineLocations r res; LGeometry := Some geom |}, None))
     ∧ ((∀ shp, shp ∈ res → shpGeom !! shp = None) →
        result = (zeroLocationWithGeometry, Some (ErrNoGeometry dataset)))).
Proof.
  intros res result. subst result. unfold ReverseGeocodeWithGeometry. fold res.
  assert (∀ A (x y : A), res ≠ [] → (if decide (length res = 0) then x else y) = y) as Hskip.
  { intros A x y Hne. case_decide as Hlen; [|done]. by destruct res. }
  split; [|split; [|split]].
  - by intros ->.
  - intros Hne ->. by rewrite Hskip.
  - intros Hne Hname Hnone. rewrite Hskip by done. destruct (decide (dataset = "")); [done|]. by rewrite Hnone.
  - intros shpGeom Hne Hname Hsome. rewrite Hskip by done.
    destruct (decide (dataset = "")); [done|]. rewrite Hsome. split.
    + intros j shp geom Hj Hgeom Hbefore.
      by rewrite (geometryOfFirst_found _ _ _ _ j shp geom).
    + apply geometryOfFirst_none.
Qed.

(** C10. When [ReverseGeocodeWithGeometry] returns an error, the
    [LocationWithGeometry] it returns is the zero value; the merged location
    computed before the search for a geometry is not returned with the
    no-geometry error. *)
Theorem ReverseGeocodeWithGeometry_error_zero (r : Rgeo F) (loc : Point F)
    (dataset : string) (e : Error F) :
  (ReverseGeocodeWithGeometry r loc dataset).2 = Some e →
  (ReverseGeocodeWithGeometry r loc dataset).1 = zeroLocationWithGeometry.
Proof.
  unfold ReverseGeocodeWithGeometry.
  repeat case_decide; try done.
  destruct (geoms r !! dataset) as [shpGeom|]; [|done].
  apply geometryOfFirst_error_zero.
Qed.
End Query.

(** C7, as stated, fails: on an engine without shapes the empty dataset name
    gives the location-not-found error, not the missing-parameter error, and
    so does a name that was never registered. *)
Lemma ReverseGeocodeWithGeometry_no_match_first :
  ReverseGeocodeWithGeometry (geo := Sample.s2) Sample.emptyEngine (5, 5)%float ""
  = (zeroLocationWithGeometry, Some ErrLocationNotFound)
  ∧ (ReverseGeocodeWithGeometry (geo := Sample.s2) Sample.emptyEngine (5, 5)%float "").2
    ≠ Some ErrMissingDataset
  ∧ (ReverseGeocodeWithGeometry (geo := Sample.s2) Sample.emptyEngine (5, 5)%float
       "rgeo.Cities10").2
    ≠ Some (ErrDatasetNotFound "rgeo.Cities10").
Proof. split; [|split]; vm_compute; congruence. Qed.

Lemma ReverseGeocodeWithGeometry_error_zero_witness :
  (ReverseGeocodeWithGeometry (geo := Sample.s2) Sample.engineNoFeatures (5, 5)%float
     "rgeo.NoFeatures").2 = Some (ErrNoGeometry "rgeo.NoFeatures")
  ∧ combineLocations (geo := Sample.s2) Sample.engineNoFeatures [0] ≠ emptyLocation
  ∧ (ReverseGeocodeWithGeometry (geo := Sample.s2) Sample.engineNoFeatures (5, 5)%float
       "rgeo.NoFeatures").1 = zeroLocationWithGeometry.
Proof.
  split; [vm_compute; reflexivity|]. split; [vm_compute; congruence|].
  apply (ReverseGeocodeWithGeometry_error_zero (geo := Sample.s2)
           Sample.engineNoFeatures (5, 5)%float "rgeo.NoFeatures"
           (ErrNoGeometry "rgeo.NoFeatures")).
  vm_compute. reflexivity.
Defined.

Example ReverseGeocodeWithGeometry_sample :
  ReverseGeocodeWithGeometry (geo := Sample.s2) Sample.engine (5, 5)%float "rgeo.Provinces10"
  = ({| LLocation := combineLocations (geo := Sample.s2) Sample.engine [0; 1];
        LGeometry := Some (GMultiPolygon [[Sample.squareCW]]) |}, None)
  ∧ ReverseGeocodeWithGeometry (geo := Sample.s2) Sample.engine (5, 5)%float ""
    = (zeroLocationWithGeometry, Some ErrMissingDataset)
  ∧ ReverseGeocodeWithGeometry (geo := Sample.s2) Sample.engine (5, 5)%float "rgeo.Cities10"
    = (zeroLocationWithGeometry, Some (ErrDatasetNotFound "rgeo.Cities10")).
Proof. split; [|split]; vm_compute; reflexivity. Qed.

(** ** Loops that read a slice *)

Section Loops.
Context {A : Type}.

Lemma forM_ext (idxs : list nat) (body1 body2 : nat → A → option A) (acc : A) :
  (∀ i a, i ∈ idxs → body1 i a = body2 i a) →
  forM idxs body1 acc = forM idxs body2 acc.
Proof.
  revert acc. induction idxs as [|i idxs IH]; intros acc Hext; [done|].
  simpl. rewrite Hext by (by left).
  destruct (body2 i acc) as [acc'|]; [|done].
  simpl. apply IH. intros j a Hj. apply Hext. by right.
Qed.

Lemma forM_pure (idxs : list nat) (step : nat → A → A) (acc : A) :
  forM idxs (λ i a, Some (step i a)) acc = Some (foldl (λ a i, step i a) acc idxs).
Proof.
  revert acc. induction idxs as [|i idxs IH]; intros acc; [done|]. simpl. apply IH.
Qed.

Lemma forM_app (l1 l2 : list nat) (body : nat → A → option A) (acc : A) :
  forM (l1 ++ l2) body acc = forM l1 body acc ≫= forM l2 body.
Proof.
  revert acc. induction l1 as [|i l1 IH]; intros acc; [done|].
  simpl. destruct (body i acc) as [acc'|]; [|done]. simpl. apply IH.
Qed.

(** A loop that stores [f (src[i])] at [pts[i]] for every index of [src]
    turns a slice of that length into [map f src]. *)
Lemma forM_fill {B : Type} (get : nat → option B) (f : B → A) (src : list B)
    (z : A) (k : nat) :
  (∀ i, i < length src → get i = src !! i) →
  k ≤ length src →
  forM (seq k (length src - k)) (λ i pts, c ← get i; Some (<[i := f c]> pts))
       (map f (take k src) ++ replicate (length src - k) z)
  = Some (map f src).
Proof.
  intros Hget. remember (length src - k) as d eqn:Hd.
  revert k Hd. induction d as [|d IH]; intros k Hd Hk.
  - simpl. rewrite take_ge by lia. by rewrite app_nil_r.
  - cbn [seq forM replicate]. rewrite Hget by lia.
    destruct (lookup_lt_is_Some_2 src k) as [c Hc]; [lia|].
    rewrite Hc. cbn [mbind option_bind].
    assert (length (map f (take k src)) = k) as Hlen.
    { rewrite length_map, length_take. lia. }
    rewrite insert_app_r_alt by lia. rewrite Hlen, Nat.sub_diag.
    change (<[0:=f c]> (z :: replicate d z)) with (f c :: replicate d z).
    replace (map f (take k src) ++ f c :: replicate d z)
      with (map f (take (S k) src) ++ replicate d z).
    + apply IH; lia.
    + rewrite (take_S_r _ _ c) by done. rewrite map_app. simpl.
      by rewrite <- app_assoc.
Qed.
End Loops.

(** ** From a ring to a loop *)

Section Rings.
Context {F : Type} {num : Scalar F} {geo : S2 F}.

Lemma loopFromRing_pts_eq (r : Ring F) (rv : bool) :
  1 ≤ length r →
  loopFromRing_pts r rv
  = Some (map pointFromCoord (take (length r - 1) (if rv then reverse r else r))).
Proof.
  intros Hn. unfold loopFromRing_pts, for_range.
  case_decide; [lia|].
  set (src := take (length r - 1) (if rv then reverse r else r)).
  assert (length src = length r - 1) as Hsrc.
  { unfold src. rewrite length_take. destruct rv; rewrite ?length_reverse; lia. }
  pose proof (forM_fill (A := S2Point)
    (λ i, if rv then r !! (length r - 1 - i) else r !! i)
    pointFromCoord src zeroS2Point 0) as Hfill.
  rewrite Hsrc in Hfill. rewrite Nat.sub_0_r in *. simpl in Hfill.
  apply Hfill; [|lia].
  intros i Hi. unfold src. rewrite lookup_take_lt by lia.
  destruct rv; [|done].
  rewrite reverse_lookup by lia. f_equal. lia.
Qed.

(** C2. For a ring of [n] points, [n] at least 4, [loopFromRing] builds the
    loop from a sequence of [n-1] points: not reversed, they are the first
    [n-1] points of the ring in order, the closing point dropped; reversed,
    they are the first [n-1] points of the ring read backwards. *)
Theorem loopFromRing_drops_closing_point (r : Ring F) (rv : bool) :
  4 ≤ length r →
  ∃ pts : list S2Point,
    loopFromRing r rv = Some (LoopFromPoints pts)
    ∧ length pts = length r - 1
    ∧ (rv = false → pts = map pointFromCoord (take (length r - 1) r))
    ∧ (rv = true → pts = map pointFromCoord (take (length r - 1) (reverse r))).
Proof.
  intros Hn. eexists. unfold loopFromRing.
  rewrite loopFromRing_pts_eq by lia. split; [reflexivity|].
  split; [|split].
  - rewrite length_map, length_take. destruct rv; rewrite ?length_reverse; lia.
  - by intros ->.
  - by intros ->.
Qed.
End Rings.

Lemma loopFromRing_drops_closing_point_witness :
  4 ≤ length Sample.square
  ∧ loopFromRing (geo := Sample.s2) Sample.square false
    = Some (LoopFromPoints (S2 := Sample.s2)
              (map (pointFromCoord (geo := Sample.s2))
                   [(0, 0); (10, 0); (10, 10); (0, 10)]%float)).
Proof.
  split; [vm_compute; lia|].
  destruct (loopFromRing_drops_closing_point (geo := Sample.s2) Sample.square false)
    as (pts & Hloop & _ & Hpts & _); [vm_compute; lia|].
  rewrite Hloop, (Hpts eq_refl). reflexivity.
Defined.

(** ** The two winding sums, read structurally *)

Section Winding.
Context {F : Type} {num : Scalar F}.

Lemma forM_pairs (term : Point F → Point F → F) (l pre : list (Point F)) (acc : F) :
  forM (seq (length pre) (length l - 1))
    (λ i a, p ← (pre ++ l) !! i; q ← (pre ++ l) !! (i + 1); Some (fadd a (term p q)))
    acc
  = Some (pairs_acc term acc l).
Proof.
  revert pre acc. induction l as [|p l IH]; intros pre acc; [done|].
  destruct l as [|q l]; [done|].
  replace (length (p :: q :: l) - 1) with (S (length (q :: l) - 1)) by (simpl; lia).
  cbn [seq forM].
  assert ((pre ++ p :: q :: l) !! length pre = Some p) as ->.
  { rewrite lookup_app_r by lia. by rewrite Nat.sub_diag. }
  assert ((pre ++ p :: q :: l) !! (length pre + 1) = Some q) as ->.
  { rewrite lookup_app_r by lia. by replace (length pre + 1 - length pre) with 1 by lia. }
  cbn [mbind option_bind].
  change (pairs_acc term acc (p :: q :: l))
    with (pairs_acc term (fadd acc (term p q)) (q :: l)).
  rewrite <- (IH (pre ++ [p]) (fadd acc (term p q))).
  rewrite length_app, <- app_assoc. cbn [length app].
  by replace (length pre + 1) with (S (length pre)) by lia.
Qed.

Lemma Orientation_area_cons (r0 : Point F) (t : list (Point F)) :
  Orientation_area (r0 :: t)
  = Some (pairs_acc (orientation_term (X r0) (Y r0)) fzero t).
Proof.
  unfold Orientation_area, for_range. cbn [lookup list_lookup mbind option_bind length].
  replace (S (length t) - 1 - 1) with (length t - 1) by lia.
  apply (forM_pairs _ t [r0]).
Qed.

Lemma isClockwise_cons (r0 : Point F) (t : list (Point F)) :
  isClockwise (r0 :: t)
  = Some (let area := pairs_acc (orientation_term (X r0) (Y r0)) fzero t in
          negb (fltb fzero area) && fltb area fzero).
Proof.
  unfold isClockwise, Orientation. rewrite Orientation_area_cons.
  cbn [mbind option_bind]. f_equal.
  destruct (fltb fzero _), (fltb _ fzero); reflexivity.
Qed.

Lemma last_cons_default {B : Type} (a d d' : B) (t : list B) :
  List.last (a :: t) d = List.last (a :: t) d'.
Proof. revert a. induction t as [|b t IH]; intros a; [done|]. apply (IH b). Qed.

Lemma lookup_last_cons {B : Type} (r0 : B) (t : list B) :
  (r0 :: t) !! length t = Some (List.last t r0).
Proof.
  revert r0. induction t as [|q t IH]; intros r0; [done|].
  cbn [length lookup list_lookup]. rewrite IH. f_equal.
  destruct t as [|a t]; [done|]. exact (last_cons_default a q r0 t).
Qed.

Lemma shoelace_nil : RgeoGo.shoelace ([] : Ring F) = Some fzero.
Proof. reflexivity. Qed.

Lemma shoelace_cons (r0 : Point F) (t : list (Point F)) :
  RgeoGo.shoelace (r0 :: t)
  = Some (fadd (pairs_acc RgeoGo.shoelace_term fzero (r0 :: t))
               (RgeoGo.shoelace_term (List.last t r0) r0)).
Proof.
  unfold RgeoGo.shoelace, for_range. rewrite Nat.sub_0_r.
  set (r := r0 :: t). set (n := length r).
  assert (n = S (length t)) as Hn by reflexivity.
  replace (seq 0 n) with (seq 0 (n - 1) ++ [n - 1]).
  2:{ rewrite Hn. replace (S (length t) - 1) with (length t) by lia.
      by rewrite seq_S. }
  rewrite forM_app.
  rewrite (forM_ext _ _
    (λ i a, p ← ([] ++ r) !! i; q ← ([] ++ r) !! (i + 1);
            Some (fadd a (RgeoGo.shoelace_term p q)))).
  2:{ intros i a Hi. apply elem_of_seq in Hi. cbn [app].
      rewrite Nat.mod_small by lia. reflexivity. }
  rewrite (forM_pairs RgeoGo.shoelace_term r [] fzero).
  cbn [mbind option_bind forM].
  replace ((n - 1 + 1) mod n) with 0.
  2:{ replace (n - 1 + 1) with n by lia. symmetry. apply Nat.Div0.mod_same. }
  assert (r !! (n - 1) = Some (List.last t r0)) as Hlast.
  { unfold r. rewrite Hn. replace (S (length t) - 1) with (length t) by lia.
    apply lookup_last_cons. }
  rewrite Hlast. reflexivity.
Qed.

(** Neither winding test panics on a ring that has a point. *)
Lemma isClockwise_total (r : Ring F) :
  1 ≤ length r → is_Some (isClockwise r) ∧ is_Some (RgeoGo.isClockwise r).
Proof.
  destruct r as [|r0 t]; [simpl; lia|]. intros _. split.
  - rewrite isClockwise_cons. eauto.
  - unfold RgeoGo.isClockwise. rewrite shoelace_cons. simpl. eauto.
Qed.
End Winding.

(** ** The two winding tests in exact arithmetic *)

(** Exact arithmetic: the operations of [Scalar] form a commutative ring
    with [fone] and [fopp], and the order [fltb] is asymmetric around zero
    and turned over by [fopp]. The integers and the real numbers are such;
    binary64 is not (its addition is not associative). *)
Section Exact.
Context {F : Type} {num : Scalar F}.
Variables (fone : F) (fopp : F → F).
Hypothesis Fring : ring_theory fzero fone fadd fmul fsub fopp (@eq F).
Hypothesis fltb_opp : ∀ x : F, fltb fzero (fopp x) = fltb x fzero.
Hypothesis fltb_asym : ∀ x : F, fltb fzero x = true → fltb x fzero = false.

Add Ring exact_ring : Fring.

Local Infix "⊕" := fadd (at level 50, left associativity).
Local Infix "⊖" := fsub (at level 50, left associativity).
Local Infix "⊗" := fmul (at level 40, left associativity).

Lemma last_cons_cons {B : Type} (q p : B) (l : list B) :
  List.last (q :: l) p = List.last l q.
Proof. destruct l as [|a l]; [done|]. exact (last_cons_default a p q l). Qed.

(** Along a path, a shoelace term and an orientation term add up to the
    difference of [x*y + oy*x - ox*y] between its two ends. *)
Lemma pairs_acc_exact (ox oy : F) (l : list (Point F)) (p : Point F) (a1 a2 : F) :
  pairs_acc RgeoGo.shoelace_term a1 (p :: l)
  = (a1 ⊕ a2
     ⊕ (X (List.last l p) ⊗ Y (List.last l p) ⊕ oy ⊗ X (List.last l p)
        ⊖ ox ⊗ Y (List.last l p))
     ⊖ (X p ⊗ Y p ⊕ oy ⊗ X p ⊖ ox ⊗ Y p))
    ⊖ pairs_acc (orientation_term ox oy) a2 (p :: l).
Proof.
  revert p a1 a2. induction l as [|q l IH]; intros p a1 a2.
  - simpl. ring.
  - change (pairs_acc RgeoGo.shoelace_term a1 (p :: q :: l))
      with (pairs_acc RgeoGo.shoelace_term (a1 ⊕ RgeoGo.shoelace_term p q) (q :: l)).
    change (pairs_acc (orientation_term ox oy) a2 (p :: q :: l))
      with (pairs_acc (orientation_term ox oy) (a2 ⊕ orientation_term ox oy p q) (q :: l)).
    rewrite (IH q _ (a2 ⊕ orientation_term ox oy p q)), last_cons_cons.
    unfold RgeoGo.shoelace_term, orientation_term. ring.
Qed.

(** The shoelace sum is the opposite of the sum of [Ring.Orientation]. *)
Lemma shoelace_opp_area (r0 : Point F) (t : list (Point F)) :
  ∃ a area : F,
    RgeoGo.shoelace (r0 :: t) = Some a
    ∧ Orientation_area (r0 :: t) = Some area
    ∧ a = fopp area.
Proof.
  eexists _, _. split; [apply shoelace_cons|]. split; [apply Orientation_area_cons|].
  rewrite (pairs_acc_exact (X r0) (Y r0) t r0 fzero fzero).
  assert (pairs_acc (orientation_term (X r0) (Y r0)) fzero (r0 :: t)
          = pairs_acc (orientation_term (X r0) (Y r0)) fzero t) as ->.
  { destruct t as [|q t]; [done|].
    change (pairs_acc (orientation_term (X r0) (Y r0)) fzero (r0 :: q :: t))
      with (pairs_acc (orientation_term (X r0) (Y r0))
              (fzero ⊕ orientation_term (X r0) (Y r0) r0 q) (q :: t)).
    f_equal. unfold orientation_term. ring. }
  unfold RgeoGo.shoelace_term. ring.
Qed.

Lemma isClockwise_exact (r0 : Point F) (t : list (Point F)) :
  ∃ a : F, RgeoGo.shoelace (r0 :: t) = Some a
           ∧ RgeoGo.isClockwise (r0 :: t) = Some (fltb fzero a)
           ∧ isClockwise (r0 :: t) = Some (fltb fzero a).
Proof.
  destruct (shoelace_opp_area r0 t) as (a & area & Ha & Harea & ->).
  exists (fopp area). split; [done|]. split.
  - unfold RgeoGo.isClockwise. by rewrite Ha.
  - rewrite isClockwise_cons. rewrite Orientation_area_cons in Harea.
    injection Harea as ->. cbn zeta. f_equal. rewrite fltb_opp.
    destruct (fltb fzero area) eqn:Hpos; [|done].
    by rewrite (fltb_asym area Hpos).
Qed.
End Exact.

(** ** Normalizing the rings of a polygon *)

Section Normalize.
Context {F : Type} {num : Scalar F} {geo : S2 F}.

(** The loop of a ring that has a point: built once, from the points in the
    order the winding test chose, and inverted when its cap is wider than a
    hemisphere. *)
Lemma normalizedLoop_eq (r : Ring F) :
  1 ≤ length r →
  ∃ (cw : bool) (l : Loop),
    isClockwise r = Some cw
    ∧ l = LoopFromPoints
            (map pointFromCoord (take (length r - 1) (if cw then reverse r else r)))
    ∧ loopFromRing r cw = Some l
    ∧ normalizedLoop r
      = Some (if fltb (fconst 90) (CapBoundRadiusDegrees l) then Invert l else l).
Proof.
  intros Hn. destruct (isClockwise_total r Hn) as [[cw Hcw] _].
  eexists cw, _. split; [done|]. split; [reflexivity|].
  assert (loopFromRing r cw = Some (LoopFromPoints
            (map pointFromCoord (take (length r - 1) (if cw then reverse r else r)))))
    as Hloop.
  { unfold loopFromRing. by rewrite loopFromRing_pts_eq by lia. }
  split; [done|]. unfold normalizedLoop. rewrite Hcw. cbn [mbind option_bind].
  by rewrite Hloop.
Qed.

Lemma normalizedLoop_total (r : Ring F) : 1 ≤ length r → is_Some (normalizedLoop r).
Proof.
  intros Hn. destruct (normalizedLoop_eq r Hn) as (cw & l & _ & _ & _ & ->). eauto.
Qed.

Lemma loopSliceFromPolygon_loop_cons (p : Polygon F) (r : Ring F) (rs : list (Ring F))
    (loops : list Loop) :
  loopSliceFromPolygon_loop p (r :: rs) loops
  = if decide (length r < 4) then Some ([], Some ErrTooFewPoints)
    else if ringClosed r
    then l ← normalizedLoop r; loopSliceFromPolygon_loop p rs (loops ++ [l])
    else Some ([], Some (ErrUnclosedRing p)).
Proof.
  cbn [loopSliceFromPolygon_loop]. case_decide as Hn; [done|].
  unfold ringClosed.
  destruct (lookup_lt_is_Some_2 r 0) as [r0 ->]; [lia|].
  destruct (lookup_lt_is_Some_2 r (length r - 1)) as [rl ->]; [lia|].
  cbn [mbind option_bind]. by destruct (Point_Equal r0 rl).
Qed.

(** Rings that pass the two checks are all turned into loops. *)
Lemma loopSliceFromPolygon_loop_accepted (p : Polygon F) (rs rest : list (Ring F))
    (loops : list Loop) :
  Forall ringAccepted rs →
  ∃ ls : list Loop,
    Forall2 (λ r l, normalizedLoop r = Some l) rs ls
    ∧ loopSliceFromPolygon_loop p (rs ++ rest) loops
      = loopSliceFromPolygon_loop p rest (loops ++ ls).
Proof.
  intros Hacc. revert loops. induction Hacc as [|r rs [Hn Hclosed] _ IH]; intros loops.
  - exists []. split; [constructor|]. by rewrite app_nil_r.
  - destruct (normalizedLoop_total r) as [l Hl]; [lia|].
    destruct (IH (loops ++ [l])) as (ls & Hls & Heq).
    exists (l :: ls). split; [by constructor|].
    cbn [app]. rewrite loopSliceFromPolygon_loop_cons.
    case_decide; [lia|]. rewrite Hclosed, Hl. cbn [mbind option_bind].
    rewrite Heq, <- app_assoc. done.
Qed.

(** A ring that fails a check, anywhere in the list, makes the loop return
    an error and no loops. *)
Lemma loopSliceFromPolygon_loop_rejected (p : Polygon F) (rs : list (Ring F))
    (loops : list Loop) (r : Ring F) :
  r ∈ rs → length r < 4 ∨ ringClosed r = false →
  ∃ e, loopSliceFromPolygon_loop p rs loops = Some ([], Some e)
       ∧ (e = ErrTooFewPoints ∨ e = ErrUnclosedRing p).
Proof.
  intros Hin Hbad. revert loops.
  induction rs as [|r0 rs IH]; intros loops; [by apply elem_of_nil in Hin|].
  rewrite loopSliceFromPolygon_loop_cons.
  case_decide as Hn; [eauto|].
  destruct (ringClosed r0) eqn:Hclosed; [|eauto].
  destruct (normalizedLoop_total r0) as [l ->]; [lia|]. cbn [mbind option_bind].
  apply elem_of_cons in Hin as [->|Hin]; [|by apply IH].
  destruct Hbad as [Hshort|Hopen]; [lia|congruence].
Qed.

(** C3. In a polygon whose rings before ring [i] pass both checks,
    [loopSliceFromPolygon] returns the too-few-points error when ring [i] has
    fewer than 4 points, and the unclosed-ring error when it has at least 4
    points and its first and last points are not [Equal]; the length is
    tested first. A polygon that contains a ring of either kind gives one of
    the two errors and no loops. *)
Theorem loopSliceFromPolygon_rejects (p : Polygon F) :
  (∀ i r, p !! i = Some r → Forall ringAccepted (take i p) →
     (length r < 4 → loopSliceFromPolygon p = Some ([], Some ErrTooFewPoints))
     ∧ (4 ≤ length r → ringClosed r = false →
        loopSliceFromPolygon p = Some ([], Some (ErrUnclosedRing p))))
  ∧ (∀ r, r ∈ p → length r < 4 ∨ ringClosed r = false →
       ∃ e, loopSliceFromPolygon p = Some ([], Some e)
            ∧ (e = ErrTooFewPoints ∨ e = ErrUnclosedRing p)).
Proof.
  split.
  - intros i r Hi Hacc. unfold loopSliceFromPolygon.
    rewrite <- (take_drop_middle p i r Hi) at 2 4.
    destruct (loopSliceFromPolygon_loop_accepted p (take i p) (r :: drop (S i) p) [] Hacc)
      as (ls & _ & ->).
    rewrite loopSliceFromPolygon_loop_cons. split.
    + intros Hshort. by case_decide.
    + intros Hlong Hopen. case_decide; [lia|]. by rewrite Hopen.
  - intros r Hin Hbad. by apply (loopSliceFromPolygon_loop_rejected p p [] r).
Qed.

(** A polygon is converted exactly when all its rings pass the checks. *)
Lemma loopSliceFromPolygon_accepted (p : Polygon F) :
  Forall ringAccepted p →
  ∃ loops, loopSliceFromPolygon p = Some (loops, None)
           ∧ Forall2 (λ r l, normalizedLoop r = Some l) p loops.
Proof.
  intros Hacc. unfold loopSliceFromPolygon.
  destruct (loopSliceFromPolygon_loop_accepted p p [] [] Hacc) as (ls & Hls & Heq).
  rewrite app_nil_r in Heq. rewrite Heq. exists ls. by split.
Qed.

Lemma ringAccepted_dec (r : Ring F) :
  ringAccepted r ∨ (length r < 4 ∨ ringClosed r = false).
Proof.
  unfold ringAccepted. destruct (decide (length r < 4)); [by right; left|].
  destruct (ringClosed r); [left; split; [lia|done]|by right; right].
Qed.

Lemma loopSliceFromPolygon_total (p : Polygon F) :
  (Forall ringAccepted p
   ∧ ∃ loops, loopSliceFromPolygon p = Some (loops, None)
              ∧ Forall2 (λ r l, normalizedLoop r = Some l) p loops)
  ∨ (¬ Forall ringAccepted p
     ∧ ∃ e, loopSliceFromPolygon p = Some ([], Some e)
            ∧ (e = ErrTooFewPoints ∨ e = ErrUnclosedRing p)).
Proof.
  assert (Forall ringAccepted p ∨ ∃ r, r ∈ p ∧ (length r < 4 ∨ ringClosed r = false))
    as [Hacc|(r & Hin & Hbad)].
  { induction p as [|r p IH]; [left; constructor|].
    destruct (ringAccepted_dec r) as [Hr|Hr]; [|right; exists r; split; [by left|done]].
    destruct IH as [IH|(r' & Hin & Hbad)]; [left; by constructor|].
    right. exists r'. split; [by right|done]. }
  - left. split; [done|]. by apply loopSliceFromPolygon_accepted.
  - right. split.
    + intros Hall. rewrite Forall_forall in Hall. destruct (Hall r Hin) as [Hn Hc].
      destruct Hbad; [lia|congruence].
    + by apply (loopSliceFromPolygon_loop_rejected p p [] r).
Qed.

(** C4. When [loopSliceFromPolygon] accepts a polygon it returns one loop
    per ring, in order. The loop of ring [r] is the loop [l] that
    [loopFromRing] builds from [r] with the order that [isClockwise] chose:
    it is [Invert l] when the radius of the cap bound of [l] is greater than
    90 degrees, and [l] itself otherwise. No second loop is built. *)
Theorem loopSliceFromPolygon_inverts_wide (p : Polygon F) (loops : list Loop) :
  loopSliceFromPolygon p = Some (loops, None) →
  length loops = length p
  ∧ ∀ i r, p !! i = Some r →
      ∃ (cw : bool) (l : Loop),
        isClockwise r = Some cw
        ∧ loopFromRing r cw = Some l
        ∧ (fltb (fconst 90) (CapBoundRadiusDegrees l) = true →
           loops !! i = Some (Invert l))
        ∧ (fltb (fconst 90) (CapBoundRadiusDegrees l) = false →
           loops !! i = Some l).
Proof.
  intros Hok.
  destruct (loopSliceFromPolygon_total p) as [[Hacc (ls & Hls & Hall)]|[_ (e & He & _)]];
    [|congruence].
  assert (ls = loops) as -> by congruence. split.
  - symmetry. by eapply Forall2_length.
  - intros i r Hi.
    destruct (Forall2_lookup_l _ _ _ _ _ Hall Hi) as (l' & Hl' & Hnorm).
    rewrite Forall_forall in Hacc.
    destruct (Hacc r) as [Hn _]; [by eapply list_elem_of_lookup_2|].
    destruct (normalizedLoop_eq r) as (cw & l & Hcw & _ & Hloop & Hnorm'); [lia|].
    exists cw, l. split; [done|]. split; [done|].
    rewrite Hnorm in Hnorm'. injection Hnorm' as ->.
    split; intros Hcap; by rewrite Hcap in Hl'.
Qed.
End Normalize.

Example loopSliceFromPolygon_sample :
  loopSliceFromPolygon (geo := Sample.s2) [Sample.square; Sample.short; Sample.unclosed]
  = Some ([], Some ErrTooFewPoints)
  ∧ loopSliceFromPolygon (geo := Sample.s2) [Sample.square; Sample.unclosed; Sample.short]
    = Some ([], Some (ErrUnclosedRing [Sample.square; Sample.unclosed; Sample.short]))
  ∧ loopSliceFromPolygon (geo := Sample.s2) [[(0, 0); (1, 1)]%float]
    = Some ([], Some ErrTooFewPoints).
Proof. split; [|split]; vm_compute; reflexivity. Qed.

Lemma loopSliceFromPolygon_inverts_wide_witness :
  loopSliceFromPolygon (geo := Sample.s2) [Sample.square; Sample.wide]
  = Some ([LoopFromPoints (S2 := Sample.s2) [(0, 0); (0, 10); (10, 10); (10, 0)]%float;
           Invert (S2 := Sample.s2)
             (LoopFromPoints (S2 := Sample.s2)
                [(0, -170); (0, 170); (10, 170); (10, -170)]%float)], None)
  ∧ length [Sample.square; Sample.wide] = 2
  ∧ fltb (fconst 90) (CapBoundRadiusDegrees (S2 := Sample.s2)
        (LoopFromPoints (S2 := Sample.s2)
           [(0, -170); (0, 170); (10, 170); (10, -170)]%float)) = true.
Proof.
  assert (loopSliceFromPolygon (geo := Sample.s2) [Sample.square; Sample.wide]
    = Some ([LoopFromPoints (S2 := Sample.s2) [(0, 0); (0, 10); (10, 10); (10, 0)]%float;
             Invert (S2 := Sample.s2)
               (LoopFromPoints (S2 := Sample.s2)
                  [(0, -170); (0, 170); (10, 170); (10, -170)]%float)], None)) as Hrun
    by (vm_compute; reflexivity).
  split; [exact Hrun|].
  split; [|vm_compute; reflexivity].
  symmetry.
  exact (proj1 (loopSliceFromPolygon_inverts_wide (geo := Sample.s2) _ _ Hrun)).
Defined.

(** ** Winding: the two tests compared *)

(** C5, as stated, fails in binary64: on a closed ring of four points, a
    clockwise triangle thinner than the rounding of the shoelace sum, the
    test by [Orientation] answers clockwise and the shoelace test of rgeo.go
    does not. Every product in both sums is exact here, the rounding is in
    the sum of the two latitudes. *)
Lemma isClockwise_binary64_disagree :
  length Sample.sliver = 4
  ∧ ringClosed (num := float64) Sample.sliver = true
  ∧ isClockwise (num := float64) Sample.sliver = Some true
  ∧ RgeoGo.isClockwise (num := float64) Sample.sliver = Some false
  ∧ isClockwise (num := float64) Sample.sliver
    ≠ RgeoGo.isClockwise (num := float64) Sample.sliver.
Proof. repeat split; vm_compute; congruence. Qed.

(** The same loops run in two arithmetics whose constants and operations
    are related by [R] give related sums. *)
Section Related.
Context {F1 F2 : Type} {num1 : Scalar F1} {num2 : Scalar F2}.
Variable R : F1 → F2 → Prop.
Hypothesis R_zero : R fzero fzero.
Hypothesis R_add : ∀ a1 a2 b1 b2, R a1 a2 → R b1 b2 → R (fadd a1 b1) (fadd a2 b2).
Hypothesis R_sub : ∀ a1 a2 b1 b2, R a1 a2 → R b1 b2 → R (fsub a1 b1) (fsub a2 b2).
Hypothesis R_mul : ∀ a1 a2 b1 b2, R a1 a2 → R b1 b2 → R (fmul a1 b1) (fmul a2 b2).

Lemma pairs_acc_related (term1 : Point F1 → Point F1 → F1)
    (term2 : Point F2 → Point F2 → F2) (l1 : list (Point F1)) (l2 : list (Point F2))
    (a1 : F1) (a2 : F2) :
  (∀ p1 p2 q1 q2, related_points R p1 p2 → related_points R q1 q2 →
     R (term1 p1 q1) (term2 p2 q2)) →
  Forall2 (related_points R) l1 l2 → R a1 a2 →
  R (pairs_acc term1 a1 l1) (pairs_acc term2 a2 l2).
Proof.
  intros Hterm Hl. revert a1 a2.
  induction Hl as [|p1 p2 l1 l2 Hp Hl IH]; intros a1 a2 Ha; [done|].
  destruct Hl as [|q1 q2 l1 l2 Hq Hl]; [done|].
  change (R (pairs_acc term1 (fadd a1 (term1 p1 q1)) (q1 :: l1))
            (pairs_acc term2 (fadd a2 (term2 p2 q2)) (q2 :: l2))).
  apply IH. apply R_add; [done|]. by apply Hterm.
Qed.

Lemma Forall2_last {A B : Type} (P : A → B → Prop) (l1 : list A) (l2 : list B) (d1 : A) (d2 : B) :
  Forall2 P l1 l2 → P d1 d2 → P (List.last l1 d1) (List.last l2 d2).
Proof.
  intros Hl. revert d1 d2. induction Hl as [|x1 x2 l1 l2 Hx Hl IH]; intros d1 d2 Hd; [done|].
  destruct Hl as [|y1 y2 l1 l2 Hy Hl]; [done|].
  change (P (List.last (y1 :: l1) d1) (List.last (y2 :: l2) d2)). by apply IH.
Qed.

Lemma winding_sums_related (r1 : Ring F1) (r2 : Ring F2) :
  Forall2 (related_points R) r1 r2 →
  option_Forall2 R (Orientation_area r1) (Orientation_area r2)
  ∧ option_Forall2 R (RgeoGo.shoelace r1) (RgeoGo.shoelace r2).
Proof.
  intros Hr. destruct Hr as [|p1 p2 t1 t2 Hp Ht].
  - split; [constructor|]. rewrite !shoelace_nil. by constructor.
  - rewrite !Orientation_area_cons, !shoelace_cons.
    assert (∀ a1 a2 b1 b2, related_points R a1 a2 → related_points R b1 b2 →
              R (RgeoGo.shoelace_term a1 b1) (RgeoGo.shoelace_term a2 b2)) as Hshoe.
    { intros a1 a2 b1 b2 [Hax Hay] [Hbx Hby]. unfold RgeoGo.shoelace_term.
      apply R_mul; [by apply R_sub|by apply R_add]. }
    split; constructor.
    + apply pairs_acc_related; [|done..].
      intros a1 a2 b1 b2 [Hax Hay] [Hbx Hby]. destruct Hp as [Hpx Hpy].
      unfold orientation_term. apply R_sub; apply R_mul; by apply R_sub.
    + apply R_add.
      * apply pairs_acc_related; [done| |done]. by constructor.
      * apply Hshoe; [|done]. by apply Forall2_last.
Qed.
End Related.

(** The order of binary64 around zero is the order of the numbers it
    stands for. *)
Lemma float64_value_sign (x : float) (v : Q) :
  float64_value x = Some v →
  PrimFloat.ltb PrimFloat.zero x = match Qcompare 0 v with Lt => true | _ => false end
  ∧ PrimFloat.ltb x PrimFloat.zero = match Qcompare v 0 with Lt => true | _ => false end.
Proof.
  unfold float64_value. rewrite !ltb_spec.
  assert (Prim2SF PrimFloat.zero = S754_zero false) as -> by reflexivity.
  destruct (Prim2SF x) as [s|s| |s m e]; try done.
  - intros [= <-]. done.
  - intros [= <-]. unfold SFltb, SFcompare, Qcompare. cbn [Qnum Qden].
    assert (0 < 2 ^ Z.max e 0)%Z by (apply Z.pow_pos_nonneg; lia).
    destruct s; split;
      match goal with
      | |- _ = match (?a ?= ?b)%Z with _ => _ end =>
          destruct (Z.compare_spec a b); (reflexivity || lia)
      end.
Qed.

Lemma Qc_ltb_value (v : Q) (q : Qc) :
  Qeq v q →
  Qc_ltb 0%Qc q = match Qcompare 0 v with Lt => true | _ => false end
  ∧ Qc_ltb q 0%Qc = match Qcompare v 0 with Lt => true | _ => false end.
Proof.
  intros Hv. unfold Qc_ltb, Qccompare.
  change (this 0%Qc) with 0%Q. by rewrite Hv.
Qed.

Lemma Qc_ltb_lt (a b : Qc) : Qc_ltb a b = true ↔ (a < b)%Qc.
Proof.
  unfold Qc_ltb. rewrite Qclt_alt. destruct (a ?= b)%Qc; split; (done || discriminate).
Qed.

Lemma Qc_ltb_opp (x : Qc) : Qc_ltb 0%Qc (- x)%Qc = Qc_ltb x 0%Qc.
Proof.
  apply eq_true_iff_eq. rewrite !Qc_ltb_lt, (Qclt_minus_iff x 0%Qc).
  by rewrite Qcplus_0_l.
Qed.

Lemma Qc_ltb_asym (x : Qc) : Qc_ltb 0%Qc x = true → Qc_ltb x 0%Qc = false.
Proof.
  intros Hpos%Qc_ltb_lt. apply not_true_is_false. intros Hneg%Qc_ltb_lt.
  apply (Qclt_not_le _ _ Hpos), Qclt_le_weak, Hneg.
Qed.

Lemma track_exact (x : float) :
  tracks_exact (track x) (default 0%Qc (Q2Qc <$> float64_value x)).
Proof.
  intros q'. unfold track. cbn [fst snd].
  destruct (float64_value x) as [v|]; [|done]. cbn [fmap option_fmap option_map default].
  intros [= <-]. split; [done|]. exists v. split; [done|].
  symmetry. apply Qred_correct.
Qed.

Lemma tracked_op_exact (fop : float → float → float) (qop : Qc → Qc → Qc)
    (a b : tracked) (qa qb : Qc) :
  tracks_exact a qa → tracks_exact b qb →
  tracks_exact (tracked_op fop qop a b) (qop qa qb).
Proof.
  intros Ha Hb q'. unfold tracked_op.
  destruct a as [xa [qa'|]], b as [xb [qb'|]]; cbn [fst snd]; try done.
  destruct (Ha qa' eq_refl) as [-> _]. destruct (Hb qb' eq_refl) as [-> _].
  cbn [mbind option_bind].
  destruct (float64_value (fop xa xb)) as [v|]; [|done]. cbn [mbind option_bind].
  destruct (Qeq_bool v (qop qa qb)) eqn:Hv; [|done].
  intros [= <-]. split; [done|]. exists v. split; [done|]. by apply Qeq_bool_iff.
Qed.

Lemma tracked_float_sums (r : Ring float) :
  option_Forall2 tracks_float
    (Orientation_area (num := trackedFloat64) (trackPoint <$> r))
    (Orientation_area (num := float64) r)
  ∧ option_Forall2 tracks_float
      (RgeoGo.shoelace (num := trackedFloat64) (trackPoint <$> r))
      (RgeoGo.shoelace (num := float64) r).
Proof.
  apply (winding_sums_related (num1 := trackedFloat64) (num2 := float64) tracks_float).
  - reflexivity.
  - by intros a1 a2 b1 b2 <- <-.
  - by intros a1 a2 b1 b2 <- <-.
  - by intros a1 a2 b1 b2 <- <-.
  - induction r as [|p r IH]; constructor; done.
Qed.

Lemma tracked_exact_sums (r : Ring float) :
  option_Forall2 tracks_exact
    (Orientation_area (num := trackedFloat64) (trackPoint <$> r))
    (Orientation_area (num := exactQc) (exactPoint <$> r))
  ∧ option_Forall2 tracks_exact
      (RgeoGo.shoelace (num := trackedFloat64) (trackPoint <$> r))
      (RgeoGo.shoelace (num := exactQc) (exactPoint <$> r)).
Proof.
  apply (winding_sums_related (num1 := trackedFloat64) (num2 := exactQc) tracks_exact).
  - apply (track_exact PrimFloat.zero).
  - intros a1 a2 b1 b2. apply tracked_op_exact.
  - intros a1 a2 b1 b2. apply tracked_op_exact.
  - intros a1 a2 b1 b2. apply tracked_op_exact.
  - induction r as [|p r IH]; constructor; [|done]. split; apply track_exact.
Qed.

Lemma noRounding_sums (r : Ring float) :
  noRounding r = true →
  ∃ (area a : float) (qarea qa : Qc) (varea va : Q),
    Orientation_area (num := float64) r = Some area
    ∧ RgeoGo.shoelace (num := float64) r = Some a
    ∧ Orientation_area (num := exactQc) (exactPoint <$> r) = Some qarea
    ∧ RgeoGo.shoelace (num := exactQc) (exactPoint <$> r) = Some qa
    ∧ float64_value area = Some varea ∧ Qeq varea qarea
    ∧ float64_value a = Some va ∧ Qeq va qa.
Proof.
  unfold noRounding. intros [[_ Harea]%andb_true_iff Ha]%andb_true_iff.
  destruct (tracked_float_sums r) as [Hfa Hfs].
  destruct (tracked_exact_sums r) as [Hqa Hqs].
  destruct Hfa as [[x1 [q1|]] area Hx1|]; [|done..].
  destruct Hfs as [[x2 [q2|]] a Hx2|]; [|done..].
  inversion Hqa as [t1 qarea Hq1|]; subst.
  inversion Hqs as [t2 qa Hq2|]; subst.
  destruct (Hq1 q1 eq_refl) as [-> (varea & Hvarea & Heq1)].
  destruct (Hq2 q2 eq_refl) as [-> (va & Hva & Heq2)].
  unfold tracks_float in Hx1, Hx2. cbn [fst] in *. subst.
  by exists area, a, qarea, qa, varea, va.
Qed.

(** Where nothing rounds, rounding changes no sign. *)
Lemma noRounding_signsKept (r : Ring float) :
  noRounding r = true → signsKept r = true.
Proof.
  intros Hexact.
  destruct (noRounding_sums r Hexact)
    as (area & a & qarea & qa & varea & va & Harea & Ha & Hqarea & Hqa
        & Hvarea & Heqarea & Hva & Heqa).
  unfold noRounding in Hexact.
  apply andb_true_iff in Hexact as [[Hfin _]%andb_true_iff _].
  unfold signsKept. rewrite Hfin, Harea, Hqarea, Ha, Hqa. unfold sameSign.
  destruct (float64_value_sign area varea Hvarea) as [-> ->].
  destruct (float64_value_sign a va Hva) as [-> ->].
  destruct (Qc_ltb_value varea qarea Heqarea) as [-> ->].
  destruct (Qc_ltb_value va qa Heqa) as [-> ->].
  by rewrite !eqb_reflx.
Qed.

Lemma SFcompare_refl (s : bool) (m : positive) (e : Z) :
  SFcompare (S754_finite s m e) (S754_finite s m e) = Some Eq.
Proof.
  unfold SFcompare. destruct s; rewrite Z.compare_refl; f_equal.
  - unfold CompOpp. by rewrite Pos.compare_cont_refl.
  - by rewrite Pos.compare_cont_refl.
Qed.

(** The finite binary64 numbers are those that stand for a rational. *)
Lemma is_finite_value (x : float) :
  PrimFloat.is_finite x = true ↔ is_Some (float64_value x).
Proof.
  unfold PrimFloat.is_finite, PrimFloat.is_nan, PrimFloat.is_infinity, float64_value.
  rewrite !FloatAxioms.eqb_spec, FloatAxioms.abs_spec.
  assert (Prim2SF infinity = S754_infinity false) as -> by reflexivity.
  destruct (Prim2SF x) as [s|s| |s m e]; unfold SFeqb, SFabs.
  - destruct s; cbn; split; eauto.
  - destruct s; cbn; split; (done || by intros [? ?]).
  - cbn. split; (done || by intros [? ?]).
  - rewrite SFcompare_refl. cbn. split; eauto.
Qed.

(** On a ring where rounding changes no sign, both tests of binary64 answer
    by the sign of the shoelace sum, which is the sign of the exact sum. *)
Lemma signsKept_winding (r : Ring float) :
  signsKept r = true →
  ∃ (a : float) (qa : Qc),
    RgeoGo.shoelace (num := float64) r = Some a
    ∧ RgeoGo.shoelace (num := exactQc) (exactPoint <$> r) = Some qa
    ∧ PrimFloat.ltb PrimFloat.zero a = Qc_ltb 0%Qc qa
    ∧ PrimFloat.ltb a PrimFloat.zero = Qc_ltb qa 0%Qc
    ∧ isClockwise (num := float64) r = Some (PrimFloat.ltb PrimFloat.zero a)
    ∧ RgeoGo.isClockwise (num := float64) r = Some (PrimFloat.ltb PrimFloat.zero a).
Proof.
  unfold signsKept. intros [_ Hsigns]%andb_true_iff.
  destruct (Orientation_area (num := float64) r) as [area|] eqn:Harea; [|done].
  destruct (Orientation_area (num := exactQc) (exactPoint <$> r)) as [qarea|] eqn:Hqarea;
    [|done].
  destruct (RgeoGo.shoelace (num := float64) r) as [a|] eqn:Ha; [|done].
  destruct (RgeoGo.shoelace (num := exactQc) (exactPoint <$> r)) as [qa|] eqn:Hqa; [|done].
  unfold sameSign in Hsigns.
  apply andb_true_iff in Hsigns
    as [[Hapos%eqb_prop Haneg%eqb_prop]%andb_true_iff [Hpos%eqb_prop Hneg%eqb_prop]%andb_true_iff].
  destruct r as [|r0 t]; [done|].
  exists a, qa. split; [done|]. split; [done|]. split; [done|]. split; [done|].
  split; [|unfold RgeoGo.isClockwise; by rewrite Ha].
  destruct (isClockwise_exact (num := exactQc) 1%Qc Qcopp Qcrt Qc_ltb_opp Qc_ltb_asym
              (exactPoint r0) (exactPoint <$> t)) as (qa' & Hqa' & _ & Hq).
  cbn [fmap list_fmap] in Hqa, Hqarea.
  assert (qa' = qa) as -> by congruence.
  assert (isClockwise (num := exactQc) (exactPoint r0 :: (exactPoint <$> t))
          = Some (negb (Qc_ltb 0%Qc qarea) && Qc_ltb qarea 0%Qc)) as Hq'.
  { unfold isClockwise, Orientation. rewrite Hqarea.
    cbn [mbind option_bind fltb fzero exactQc].
    f_equal. destruct (Qc_ltb 0%Qc qarea), (Qc_ltb qarea 0%Qc); reflexivity. }
  rewrite Hq' in Hq. injection Hq as Hq. cbn [fltb fzero exactQc] in Hq.
  unfold isClockwise, Orientation. rewrite Harea.
  cbn [mbind option_bind fltb fzero float64]. f_equal.
  rewrite Hapos, Haneg, Hpos, <- Hq.
  destruct (Qc_ltb 0%Qc qarea), (Qc_ltb qarea 0%Qc); reflexivity.
Qed.

(** C5, amended. In binary64, the test by [Orientation] and the shoelace
    test of rgeo.go give the same answer on every ring with finite
    coordinates on which no operation of the two sums rounds, and more
    generally on which rounding changes the sign of neither sum: clockwise
    exactly when the shoelace sum is positive. A ring the test calls
    clockwise has its points read backwards into the loop. *)
Theorem isClockwise_float64_agree (r : Ring float) :
  noRounding r = true ∨ signsKept r = true →
  isClockwise (num := float64) r = RgeoGo.isClockwise (num := float64) r
  ∧ (∃ a : float, RgeoGo.shoelace (num := float64) r = Some a
       ∧ isClockwise (num := float64) r = Some (PrimFloat.ltb PrimFloat.zero a))
  ∧ (∀ geo : S2 float, isClockwise (num := float64) r = Some true →
       ∃ l : Loop,
         l = LoopFromPoints (map pointFromCoord (take (length r - 1) (reverse r)))
         ∧ normalizedLoop r
           = Some (if fltb (fconst 90) (CapBoundRadiusDegrees l) then Invert l else l)).
Proof.
  intros Hr.
  assert (signsKept r = true) as Hsigns.
  { destruct Hr as [Hexact|Hsigns]; [by apply noRounding_signsKept|done]. }
  destruct (signsKept_winding r Hsigns) as (a & qa & Ha & _ & _ & _ & Hnew & Hold).
  split; [congruence|]. split; [by exists a|].
  intros geo Htrue.
  assert (1 ≤ length r) as Hn by (destruct r; [done|simpl; lia]).
  destruct (normalizedLoop_eq r Hn) as (cw & l & Hcw & Hl & _ & Hnorm).
  assert (cw = true) as -> by congruence.
  exists l. by split.
Qed.

Lemma isClockwise_float64_agree_witness :
  (noRounding Sample.squareCW = true
   ∧ isClockwise (num := float64) Sample.squareCW
     = RgeoGo.isClockwise (num := float64) Sample.squareCW
   ∧ isClockwise (num := float64) Sample.squareCW = Some true)
  ∧ (noRounding Sample.tenths = false
     ∧ signsKept Sample.tenths = true
     ∧ isClockwise (num := float64) Sample.tenths
       = RgeoGo.isClockwise (num := float64) Sample.tenths
     ∧ isClockwise (num := float64) Sample.tenths = Some true).
Proof.
  split.
  - split; [vm_compute; reflexivity|]. split; [|vm_compute; reflexivity].
    apply (isClockwise_float64_agree Sample.squareCW). left. vm_compute. reflexivity.
  - split; [vm_compute; reflexivity|]. split; [vm_compute; reflexivity|].
    split; [|vm_compute; reflexivity].
    apply (isClockwise_float64_agree Sample.tenths). right. vm_compute. reflexivity.
Defined.

(** Rings with whole coordinates, a ring around most of the globe and a
    ring with halves and quarters are rings on which nothing rounds. On a
    ring with tenths the sums round and keep their signs. On the ring of
    the counterexample the shoelace sum rounds to zero. *)
Example noRounding_sample :
  noRounding Sample.square = true
  ∧ noRounding Sample.squareCW = true
  ∧ noRounding Sample.wide = true
  ∧ noRounding [(0.5, 0.25); (0.75, 1.5); (1.25, 0.5); (0.5, 0.25)]%float = true
  ∧ noRounding Sample.tenths = false
  ∧ signsKept Sample.tenths = true
  ∧ signsKept Sample.sliver = false
  ∧ signsKept [] = false.
Proof. repeat split; vm_compute; reflexivity. Qed.

(** In exact arithmetic the two tests agree on every ring that has a point:
    over the integers and over the real numbers. *)
Example isClockwise_integer_agree (r : Ring Z) :
  r ≠ [] → isClockwise (num := exactZ) r = RgeoGo.isClockwise (num := exactZ) r.
Proof.
  intros Hne. destruct r as [|r0 t]; [done|].
  destruct (isClockwise_exact (num := exactZ) 1%Z Z.opp Zth) with (r0 := r0) (t := t)
    as (a & _ & Hold & Hnew); [| |congruence].
  - intros x. cbn [fltb fzero exactZ].
    destruct (Z.ltb_spec 0 (- x)), (Z.ltb_spec x 0); (reflexivity || lia).
  - intros x. cbn [fltb fzero exactZ].
    destruct (Z.ltb_spec 0 x), (Z.ltb_spec x 0); (reflexivity || discriminate || lia).
Qed.

Example isClockwise_real_agree (r : Ring R) :
  r ≠ [] → isClockwise (num := exactR) r = RgeoGo.isClockwise (num := exactR) r.
Proof.
  intros Hne. destruct r as [|r0 t]; [done|].
  destruct (isClockwise_exact (num := exactR) 1%R Ropp RTheory) with (r0 := r0) (t := t)
    as (a & _ & Hold & Hnew); [| |congruence].
  - intros x. cbn [fltb fzero exactR].
    destruct (Rlt_dec 0 (- x)), (Rlt_dec x 0); (reflexivity || lra).
  - intros x. cbn [fltb fzero exactR].
    destruct (Rlt_dec 0 x), (Rlt_dec x 0); (reflexivity || discriminate || lra).
Qed.

(** ** Building the engine *)

Section Construction.
Context {F : Type} {num : Scalar F} {geo : S2 F} {dec : Codec F}.

Lemma polygonFromMultiPolygon_loop_total (ps : list (Polygon F)) (loops : list Loop) :
  (Forall (Forall ringAccepted) ps
   ∧ ∃ poly, polygonFromMultiPolygon_loop ps loops = Some (Some poly, None))
  ∨ (¬ Forall (Forall ringAccepted) ps
     ∧ ∃ e, polygonFromMultiPolygon_loop ps loops = Some (None, Some e)).
Proof.
  revert loops. induction ps as [|p ps IH]; intros loops.
  - left. split; [constructor|]. simpl. eauto.
  - cbn [polygonFromMultiPolygon_loop].
    destruct (loopSliceFromPolygon_total p)
      as [[Hacc (this & -> & _)]|[Hrej (e & -> & _)]]; cbn [mbind option_bind].
    + destruct (IH (loops ++ this)) as [[Hall Hok]|[Hnot Herr]].
      * left. split; [by constructor|done].
      * right. split; [|done]. intros Hall. apply Hnot. by inversion Hall.
    + right. split; [|eauto]. intros Hall. apply Hrej. by inversion Hall.
Qed.

(** The package's own code in [polygonFromGeometry] and below reads no
    index out of range: with S2 returning, it returns a polygon and no error on
    a well-formed geometry, and an error and no polygon on any other. *)
Lemma polygonFromGeometry_total (g : Geometry F) :
  (geometryWellFormed g ∧ ∃ poly, polygonFromGeometry g = Some (Some poly, None))
  ∨ (¬ geometryWellFormed g ∧ ∃ e, polygonFromGeometry g = Some (None, Some e)).
Proof.
  destruct g as [p|mp|kind].
  - cbn [polygonFromGeometry geometryWellFormed]. unfold polygonFromPolygon.
    destruct (loopSliceFromPolygon_total p)
      as [[Hacc (loops & -> & _)]|[Hrej (e & -> & _)]]; cbn [mbind option_bind].
    + left. eauto.
    + right. eauto.
  - cbn [polygonFromGeometry geometryWellFormed]. unfold polygonFromMultiPolygon.
    destruct (polygonFromMultiPolygon_loop_total mp [])
      as [[Hacc (poly & ->)]|[Hrej (e & ->)]]; cbn [mbind option_bind].
    + left. eauto.
    + right. eauto.
  - right. split; [by intros []|]. simpl. eauto.
Qed.

(** One feature more: the step of the loop of [New_features] keeps
    [ingested]. *)
Lemma ingested_step (fs : list (string * Feature F)) (ret : Rgeo F)
    (name : string) (c : Feature F) (p : S2Polygon) :
  ingested fs ret →
  polygonFromGeometry (FGeometry c) = Some (Some p, None) →
  ingested (fs ++ [(name, c)])
    {| index := index ret ++ [p];
       locs := <[length (index ret) := getLocationStrings (FProperties c)]> (locs ret);
       geoms := <[name := <[length (index ret) := FGeometry c]> (geoms ret !!! name)]>
                  (geoms ret) |}.
Proof.
  intros [Hlen Hold] Hpoly. split.
  - cbn [index]. rewrite !length_app. simpl. lia.
  - intros k name' c' Hk. cbn [index locs geoms].
    destruct (decide (k < length fs)) as [Hlt|Hge].
    + rewrite lookup_app_l in Hk by done.
      destruct (Hold k name' c' Hk) as ((p' & Hp' & Hpoly') & Hloc & g & Hg & Hgk).
      split; [|split].
      * exists p'. split; [|done]. by rewrite lookup_app_l by lia.
      * rewrite lookup_insert_ne by lia. done.
      * destruct (decide (name = name')) as [->|Hne].
        -- rewrite lookup_insert_eq. eexists. split; [done|].
           rewrite (lookup_total_correct _ _ _ Hg).
           rewrite lookup_insert_ne by lia. done.
        -- rewrite lookup_insert_ne by done. eauto.
    + assert (k = length fs) as ->.
      { apply lookup_lt_Some in Hk. rewrite length_app in Hk. simpl in Hk. lia. }
      rewrite lookup_app_r, Nat.sub_diag in Hk by lia. simpl in Hk.
      injection Hk as <- <-. rewrite <- Hlen. split; [|split].
      * exists p. split; [|done]. rewrite lookup_app_r, Nat.sub_diag by lia. done.
      * by rewrite lookup_insert_eq.
      * rewrite lookup_insert_eq. eexists. split; [done|]. by rewrite lookup_insert_eq.
Qed.

(** Registering the name of a dataset keeps [ingested]. *)
Lemma ingested_register (fs : list (string * Feature F)) (ret : Rgeo F) (name : string) :
  ingested fs ret →
  ingested fs
    match geoms ret !! name with
    | Some _ => ret
    | None => {| index := index ret; locs := locs ret;
                 geoms := <[name := ∅]> (geoms ret) |}
    end.
Proof.
  intros Hing. destruct (geoms ret !! name) eqn:Hname; [done|].
  destruct Hing as [Hlen Hold]. split; [done|].
  intros k name' c Hk. destruct (Hold k name' c Hk) as (Hp & Hloc & g & Hg & Hgk).
  split; [done|]. split; [done|]. exists g. split; [|done].
  cbn [geoms]. rewrite lookup_insert_ne; [done|]. congruence.
Qed.

(** A slice of features is a run of features that are not nil, which is
    the whole slice or is followed by a nil pointer. *)
Lemma features_until_nil (tfc : list (option (Feature F))) :
  (∃ cs, tfc = Some <$> cs) ∨ (∃ cs rest, tfc = (Some <$> cs) ++ None :: rest).
Proof.
  induction tfc as [|[c|] tfc IH].
  - left. by exists [].
  - destruct IH as [[cs ->]|(cs & rest & ->)].
    + left. by exists (c :: cs).
    + right. by exists (c :: cs), rest.
  - right. by exists [], tfc.
Qed.

Lemma omap_id_Some {A : Type} (cs : list A) :
  omap (λ c : option A, c) (Some <$> cs) = cs.
Proof. induction cs as [|c cs IH]; [done|]. cbn. by rewrite IH. Qed.

Lemma fmap_Some_no_nil {A : Type} (cs cs' : list A) (rest : list (option A)) :
  Some <$> cs' ≠ (Some <$> cs) ++ None :: rest.
Proof.
  intros Heq. assert (None ∈ Some <$> cs') as Hin.
  { rewrite Heq. apply elem_of_app. right. by left. }
  apply list_elem_of_fmap in Hin as (c & Hc & _). done.
Qed.

Lemma New_features_total (name : string) (tfc : list (Feature F))
    (fs : list (string * Feature F)) (ret : Rgeo F) :
  ingested fs ret →
  (Forall (λ c, geometryWellFormed (FGeometry c)) tfc
   ∧ ∃ ret', New_features name (Some <$> tfc) ret = Some (inl ret')
             ∧ ingested (fs ++ map (λ c, (name, c)) tfc) ret')
  ∨ (¬ Forall (λ c, geometryWellFormed (FGeometry c)) tfc
     ∧ ∃ e, New_features name (Some <$> tfc) ret = Some (inr (ErrBadPolygon e))).
Proof.
  revert fs ret. induction tfc as [|c tfc IH]; intros fs ret Hing.
  - left. split; [constructor|]. exists ret. split; [done|]. by rewrite app_nil_r.
  - rewrite fmap_cons. cbn [New_features]. cbn [mbind option_bind].
    destruct (polygonFromGeometry_total (FGeometry c))
      as [[Hwf (p & Hp)]|[Hbad (e & He)]]; [rewrite Hp|rewrite He];
      cbn [mbind option_bind].
    + destruct (IH _ _ (ingested_step fs ret name c p Hing Hp))
        as [[Hall (ret' & Hret' & Hing')]|[Hnot Herr]].
      * left. split; [by constructor|]. exists ret'. split; [done|].
        cbn [map]. by rewrite cons_middle, app_assoc.
      * right. split; [|done]. intros Hall. apply Hnot. by inversion Hall.
    + right. split; [|eauto]. intros Hall. apply Hbad. by inversion Hall.
Qed.

(** With a nil pointer among the features, the loop of [New] panics when it
    reaches it; it stops before with an error when an earlier feature has a
    geometry that is not well formed. It returns no engine. *)
Lemma New_features_nil (name : string) (cs : list (Feature F))
    (rest : list (option (Feature F))) (fs : list (string * Feature F)) (ret : Rgeo F) :
  ingested fs ret →
  (Forall (λ c, geometryWellFormed (FGeometry c)) cs
   ∧ New_features name ((Some <$> cs) ++ None :: rest) ret = None)
  ∨ (¬ Forall (λ c, geometryWellFormed (FGeometry c)) cs
     ∧ ∃ e, New_features name ((Some <$> cs) ++ None :: rest) ret
            = Some (inr (ErrBadPolygon e))).
Proof.
  revert fs ret. induction cs as [|c cs IH]; intros fs ret Hing.
  - left. split; [constructor|]. reflexivity.
  - rewrite fmap_cons. cbn [app New_features]. cbn [mbind option_bind].
    destruct (polygonFromGeometry_total (FGeometry c))
      as [[Hwf (p & Hp)]|[Hbad (e & He)]]; [rewrite Hp|rewrite He];
      cbn [mbind option_bind].
    + destruct (IH _ _ (ingested_step fs ret name c p Hing Hp)) as [[Hall Hnil]|[Hnot Herr]].
      * left. split; [by constructor|done].
      * right. split; [|done]. intros Hall. apply Hnot. by inversion Hall.
    + right. split; [|eauto]. intros Hall. apply Hbad. by inversion Hall.
Qed.

Lemma decodeDataset_Some (d : Dataset) (tfc : list (option (Feature F))) :
  decodeDataset d = Some tfc ↔
  payload d ≠ []
  ∧ ∃ zr, gzipNewReader (payload d) = inr zr ∧ jsonDecode zr = inr tfc
          ∧ gzipClose zr = None.
Proof.
  unfold decodeDataset. case_decide as Hp.
  - split; [done|]. by intros [? _].
  - destruct (gzipNewReader (payload d)) as [e|zr]; [split; [done|by intros (_ & ? & ? & _)]|].
    destruct (jsonDecode zr) as [e|tfc'] eqn:Hdec.
    { split; [done|]. intros (_ & zr' & Hzr & Hdec' & _). congruence. }
    destruct (gzipClose zr) as [e|] eqn:Hclose.
    { split; [done|]. intros (_ & zr' & Hzr & _ & Hclose'). congruence. }
    split.
    + intros [= <-]. split; [done|]. by exists zr.
    + intros (_ & zr' & Hzr & Hdec' & _). congruence.
Qed.

Lemma New_datasets_cons (i : nat) (d : Dataset) (ds : list Dataset) (ret : Rgeo F) :
  New_datasets i (d :: ds) ret
  = if decide (payload d = []) then Some (None, Some (ErrNoData i)) else
    match gzipNewReader (payload d) with
    | inl err => Some (None, Some (ErrDecompression i err))
    | inr zr =>
        match jsonDecode zr with
        | inl err => Some (None, Some (ErrInvalidJSON i err))
        | inr tfc =>
            match gzipClose zr with
            | Some err => Some (None, Some (ErrCloseReader i err))
            | None =>
                res ← New_features (functionName d) tfc
                  match geoms ret !! functionName d with
                  | Some _ => ret
                  | None => {| index := index ret; locs := locs ret;
                               geoms := <[functionName d := ∅]> (geoms ret) |}
                  end;
                match res with
                | inr e => Some (None, Some e)
                | inl ret' => New_datasets (S i) ds ret'
                end
            end
        end
    end.
Proof.
  cbn [New_datasets]. destruct (payload d) as [|b br]; [done|].
  case_decide; [done|]. case_decide; [done|]. reflexivity.
Qed.

(** A dataset that does not decode stops [New] with an error. *)
Lemma New_datasets_undecoded (i : nat) (d : Dataset) (ds : list Dataset) (ret : Rgeo F) :
  decodeDataset d = None → ∃ e, New_datasets i (d :: ds) ret = Some (None, Some e).
Proof.
  rewrite New_datasets_cons. unfold decodeDataset.
  case_decide; [eauto|].
  destruct (gzipNewReader (payload d)) as [e|zr]; [eauto|].
  destruct (jsonDecode zr) as [e|tfc]; [eauto|].
  destruct (gzipClose zr) as [e|]; [eauto|done].
Qed.

Lemma New_datasets_decoded (i : nat) (d : Dataset) (ds : list Dataset) (ret : Rgeo F)
    (tfc : list (option (Feature F))) :
  decodeDataset d = Some tfc →
  New_datasets i (d :: ds) ret
  = res ← New_features (functionName d) tfc
      match geoms ret !! functionName d with
      | Some _ => ret
      | None => {| index := index ret; locs := locs ret;
                   geoms := <[functionName d := ∅]> (geoms ret) |}
      end;
    match res with
    | inr e => Some (None, Some e)
    | inl ret' => New_datasets (S i) ds ret'
    end.
Proof.
  intros (Hp & zr & Hzr & Hdec & Hclose)%decodeDataset_Some.
  rewrite New_datasets_cons. case_decide; [done|]. by rewrite Hzr, Hdec, Hclose.
Qed.

Lemma allFeatures_cons (d : Dataset) (ds : list Dataset) :
  allFeatures (d :: ds)
  = map (λ c, (functionName d, c)) (omap (λ c, c) (default [] (decodeDataset d)))
    ++ allFeatures ds.
Proof. reflexivity. Qed.

(** [New] over any list of datasets: it returns an engine that holds every
    feature when all datasets are good; otherwise it returns no engine: an
    error, or it panics, and then a dataset holds a nil feature. *)
Lemma New_datasets_total (ds : list Dataset) (i : nat)
    (fs : list (string * Feature F)) (ret : Rgeo F) :
  ingested fs ret →
  (Forall datasetGood ds
   ∧ ∃ r, New_datasets i ds ret = Some (Some r, None)
          ∧ ingested (fs ++ allFeatures ds) r)
  ∨ (¬ Forall datasetGood ds
     ∧ ((New_datasets i ds ret = None
         ∧ ∃ d tfc, d ∈ ds ∧ decodeDataset d = Some tfc ∧ None ∈ tfc)
        ∨ ∃ e, New_datasets i ds ret = Some (None, Some e))).
Proof.
  revert i fs ret. induction ds as [|d ds IH]; intros i fs ret Hing.
  - left. split; [constructor|]. exists ret. split; [done|]. by rewrite app_nil_r.
  - destruct (decodeDataset d) as [tfc|] eqn:Hdec.
    + rewrite (New_datasets_decoded i d ds ret tfc Hdec).
      destruct (features_until_nil tfc) as [[cs ->]|(cs & rest & ->)].
      * destruct (New_features_total (functionName d) cs fs _
                    (ingested_register fs ret (functionName d) Hing))
          as [[Hwf (ret' & -> & Hing')]|[Hbad (e & ->)]]; cbn [mbind option_bind].
        -- destruct (IH (S i) _ ret' Hing')
             as [[Hall (r & Hr & Hingr)]|[Hnot [(Hnone & d' & tfc' & Hd' & Htfc')|Herr]]].
           ++ left. split; [constructor; [by exists cs|done]|].
              exists r. split; [done|].
              rewrite allFeatures_cons, Hdec.
              change (default [] (Some (Some <$> cs))) with (Some <$> cs).
              by rewrite omap_id_Some, app_assoc.
           ++ right. split; [intros Hall; apply Hnot; by inversion Hall|].
              left. split; [done|]. exists d', tfc'. split; [by right|done].
           ++ right. split; [intros Hall; apply Hnot; by inversion Hall|by right].
        -- right. split; [|right; eauto].
           intros Hall. inversion Hall as [|?? (tfc' & Htfc' & Hwf) _].
           apply Hbad. rewrite Hdec in Htfc'. injection Htfc' as Htfc'.
           by apply (inj (fmap Some)) in Htfc' as ->.
      * right. split.
        { intros Hall. inversion Hall as [|?? (tfc' & Htfc' & _) _].
          rewrite Hdec in Htfc'. injection Htfc' as Htfc'.
          symmetry in Htfc'. by apply fmap_Some_no_nil in Htfc'. }
        destruct (New_features_nil (functionName d) cs rest fs _
                    (ingested_register fs ret (functionName d) Hing))
          as [[_ ->]|[_ (e & ->)]]; cbn [mbind option_bind]; [|right; eauto].
        left. split; [done|]. exists d, ((Some <$> cs) ++ None :: rest).
        split; [by left|]. split; [done|]. apply elem_of_app. right. by left.
    + right. split; [|right; by apply New_datasets_undecoded].
      intros Hall. inversion Hall as [|?? (tfc' & Htfc' & _) _]. congruence.
Qed.

(** Good datasets are loaded one after the other, the index of the next one
    counting them. *)
Lemma New_datasets_good_prefix (ds1 ds2 : list Dataset) (i : nat)
    (fs : list (string * Feature F)) (ret : Rgeo F) :
  ingested fs ret → Forall datasetGood ds1 →
  ∃ fs' ret', ingested fs' ret'
    ∧ New_datasets i (ds1 ++ ds2) ret = New_datasets (i + length ds1) ds2 ret'.
Proof.
  intros Hing Hgood. revert i fs ret Hing.
  induction Hgood as [|d ds1 (tfc & Hdec & Hwf) _ IH]; intros i fs ret Hing.
  - exists fs, ret. split; [done|]. simpl. by rewrite Nat.add_0_r.
  - cbn [app]. rewrite (New_datasets_decoded i d _ ret _ Hdec).
    destruct (New_features_total (functionName d) tfc fs _
                (ingested_register fs ret (functionName d) Hing))
      as [[_ (ret' & -> & Hing')]|[Hbad _]]; [|done].
    cbn [mbind option_bind]. destruct (IH (S i) _ ret' Hing') as (fs'' & ret'' & Hing'' & ->).
    exists fs'', ret''. split; [done|]. cbn [length]. f_equal. lia.
Qed.


Lemma ingested_empty : ingested [] {| index := []; locs := ∅; geoms := ∅ |}.
Proof. split; [done|]. intros k name c Hk. done. Qed.


(** C6, where the code departs from it. A nil pointer among the decoded
    features of a dataset, which is what a JSON null in the array of
    features decodes to, makes [New] panic on [c.Geometry] when the datasets
    before are good and the features before it in its dataset have
    well-formed geometries; no error and no engine is returned, whatever
    the datasets after it hold, an empty payload included. *)
Theorem New_nil_feature_panics (ds1 : list Dataset) (d : Dataset) (ds2 : list Dataset)
    (cs : list (Feature F)) (rest : list (option (Feature F))) :
  Forall datasetGood ds1 →
  decodeDataset d = Some ((Some <$> cs) ++ None :: rest) →
  Forall (λ c, geometryWellFormed (FGeometry c)) cs →
  New (ds1 ++ d :: ds2) = None.
Proof.
  intros Hgood Hdec Hwf. unfold New.
  destruct (New_datasets_good_prefix ds1 (d :: ds2) 0 [] _ ingested_empty Hgood)
    as (fs' & ret' & Hing' & ->).
  rewrite (New_datasets_decoded _ d ds2 ret' _ Hdec).
  destruct (New_features_nil (functionName d) cs rest fs' _
              (ingested_register fs' ret' (functionName d) Hing'))
    as [[_ ->]|[Hbad _]]; [done|]. by destruct Hbad.
Qed.
End Construction.

Lemma New_nil_feature_panics_witness :
  decodeDataset (dec := Sample.codec) Sample.NullFeature = Some [None]
  ∧ payload Sample.Empty = []
  ∧ New (geo := Sample.s2) (dec := Sample.codec) [Sample.NullFeature; Sample.Empty] = None
  ∧ New (geo := Sample.s2) (dec := Sample.codec)
      [Sample.Countries; Sample.NullFeature; Sample.Empty] = None.
Proof.
  assert (Forall (datasetGood (dec := Sample.codec)) [Sample.Countries])
    as Hgood.
  { constructor; [|constructor]. exists [Sample.testland]. split; [reflexivity|].
    repeat constructor. }
  assert (decodeDataset (dec := Sample.codec) Sample.NullFeature = Some [None]) as Hdec
    by reflexivity.
  split; [exact Hdec|]. split; [reflexivity|]. split.
  - apply (New_nil_feature_panics (geo := Sample.s2) (dec := Sample.codec)
             [] Sample.NullFeature [Sample.Empty] [] [] (Forall_nil_2 _) Hdec).
    constructor.
  - apply (New_nil_feature_panics (geo := Sample.s2) (dec := Sample.codec)
             [Sample.Countries] Sample.NullFeature [Sample.Empty] [] [] Hgood Hdec).
    constructor.
Defined.



(** ** Running the construction on the sample datasets *)

Example New_sample :
  New (geo := Sample.s2) (dec := Sample.codec) [Sample.Countries; Sample.Provinces]
  = Some (Some Sample.engine, None)
  ∧ New (geo := Sample.s2) (dec := Sample.codec) [Sample.Countries; Sample.Empty]
    = Some (None, Some (ErrNoData 1))
  ∧ New (geo := Sample.s2) (dec := Sample.codec) [Sample.Countries; Sample.NotGzip]
    = Some (None, Some (ErrDecompression 1 "gzip: invalid header"))
  ∧ New (geo := Sample.s2) (dec := Sample.codec) [Sample.NotJSON; Sample.Empty]
    = Some (None, Some (ErrInvalidJSON 0 "unexpected end of JSON input"))
  ∧ New (geo := Sample.s2) (dec := Sample.codec) [Sample.Countries; Sample.Broken]
    = Some (None, Some (ErrBadPolygon (ErrUnclosedRing [Sample.square; Sample.unclosed])))
  ∧ New (geo := Sample.s2) (dec := Sample.codec) [Sample.Points]
    = Some (None, Some (ErrBadPolygon ErrNeedsPolygon))
  ∧ length (index Sample.engine) = 2.
Proof. repeat split; vm_compute; reflexivity. Qed.

(** A JSON null among the features: [New] panics, also when the next
    dataset is empty; a feature before it that has an unclosed ring stops
    [New] with its error first. *)
Example New_nil_sample :
  New (geo := Sample.s2) (dec := Sample.codec) [Sample.NullFeature] = None
  ∧ New (geo := Sample.s2) (dec := Sample.codec) [Sample.NullFeature; Sample.Empty] = None
  ∧ New (geo := Sample.s2) (dec := Sample.codec) [Sample.Empty; Sample.NullFeature]
    = Some (None, Some (ErrNoData 0))
  ∧ New (geo := Sample.s2) (dec := Sample.codec) [Sample.BrokenThenNull]
    = Some (None, Some (ErrBadPolygon (ErrUnclosedRing [Sample.square; Sample.unclosed]))).
Proof. repeat split; vm_compute; reflexivity. Qed.

(** * Further properties *)

(** ** Merging, once more *)

(** X1. [firstNonEmpty] returns the empty string exactly when every
    parameter is empty, and otherwise one of its parameters. *)
Theorem firstNonEmpty_result (s : list string) :
  (firstNonEmpty s = "" ↔ ∀ w, w ∈ s → w = "")
  ∧ (firstNonEmpty s ≠ "" → firstNonEmpty s ∈ s).
Proof.
  induction s as [|a s [IHempty IHin]]; [split; [split; [by intros _ w ?%elem_of_nil|done]|done]|].
  destruct (decide (a = "")) as [->|Ha].
  - rewrite firstNonEmpty_cons_empty. split.
    + rewrite IHempty. split.
      * intros Hall w [->|Hw]%elem_of_cons; [done|by apply Hall].
      * intros Hall w Hw. apply Hall. by right.
    + intros Hne. right. by apply IHin.
  - rewrite firstNonEmpty_cons_set by done. split; [|by left].
    split; [done|]. intros Hall. apply Hall. by left.
Qed.

Section CombineMore.
Context {F : Type} {num : Scalar F} {geo : S2 F}.

Lemma overrideLeft_empty_l (b : Location) : overrideLeft emptyLocation b = b.
Proof. by destruct b. Qed.

Lemma overrideLeft_empty_r (a : Location) : overrideLeft a emptyLocation = a.
Proof.
  destruct a. unfold overrideLeft, keepOr. cbn.
  f_equal; by case_decide.
Qed.

Lemma overrideLeft_assoc (a b c : Location) :
  overrideLeft (overrideLeft a b) c = overrideLeft a (overrideLeft b c).
Proof.
  unfold overrideLeft, keepOr. cbn. f_equal; repeat case_decide; congruence.
Qed.

Lemma foldl_overrideLeft (l : Location) (ls : list Location) :
  foldl overrideLeft l ls = overrideLeft l (foldl overrideLeft emptyLocation ls).
Proof.
  revert l. induction ls as [|b ls IH]; intros l.
  - by rewrite overrideLeft_empty_r.
  - cbn [foldl]. rewrite IH, (IH (overrideLeft emptyLocation b)).
    by rewrite overrideLeft_empty_l, overrideLeft_assoc.
Qed.

(** X2. Merging the matches [s1 ++ s2] is merging [s1], merging [s2], and
    overriding the second result by the first: a field set by the first
    matches is kept, the others come from the later matches. No match gives
    the empty location. *)
Theorem combineLocations_app (r : Rgeo F) (s1 s2 : list nat) :
  combineLocations r (s1 ++ s2)
  = overrideLeft (combineLocations r s1) (combineLocations r s2)
  ∧ combineLocations r [] = emptyLocation.
Proof.
  split; [|done]. rewrite !combineLocations_override, map_app, foldl_app.
  apply foldl_overrideLeft.
Qed.

Lemma overrideLeft_idemp (a : Location) : overrideLeft a a = a.
Proof. destruct a. unfold overrideLeft, keepOr. cbn. f_equal; by case_decide. Qed.

(** X3. When all the matches carry one and the same location, as the copies
    of a shape loaded twice do, the merged location is that location. *)
Theorem combineLocations_same (r : Rgeo F) (s : list nat) (loc : Location) :
  s ≠ [] → (∀ shape, shape ∈ s → locationOf r shape = loc) →
  combineLocations r s = loc.
Proof.
  intros Hne Hsame. rewrite combineLocations_override.
  destruct s as [|shape s]; [done|]. clear Hne.
  cbn [map foldl]. rewrite overrideLeft_empty_l, (Hsame shape) by (by left).
  assert (∀ shape', shape' ∈ s → locationOf r shape' = loc) as Hrest.
  { intros shape' Hin. apply Hsame. by right. }
  clear Hsame. induction s as [|shape' s IH]; [done|].
  cbn [map foldl]. rewrite (Hrest shape') by (by left). rewrite overrideLeft_idemp.
  apply IH. intros shape'' Hin. apply Hrest. by right.
Qed.

(** X4. The two queries agree. When [ReverseGeocodeWithGeometry] returns
    without error, [ReverseGeocode] returns the same location without error,
    the dataset name is not empty, and the geometry is the one stored under
    that dataset for one of the matches. When [ReverseGeocode] returns an
    error, [ReverseGeocodeWithGeometry] returns the same error. *)
Theorem ReverseGeocodeWithGeometry_agrees (r : Rgeo F) (loc : Point F) (dataset : string) :
  (∀ out, ReverseGeocodeWithGeometry r loc dataset = (out, None) →
     ReverseGeocode r loc = (LLocation out, None)
     ∧ dataset ≠ ""
     ∧ ∃ shpGeom shp geom,
         geoms r !! dataset = Some shpGeom
         ∧ shp ∈ ContainingShapes (index r) (pointFromCoord loc)
         ∧ shpGeom !! shp = Some geom
         ∧ LGeometry out = Some geom)
  ∧ (∀ e, (ReverseGeocode r loc).2 = Some e →
       ReverseGeocodeWithGeometry r loc dataset = (zeroLocationWithGeometry, Some e)).
Proof.
  unfold ReverseGeocodeWithGeometry, ReverseGeocode.
  set (res := ContainingShapes (index r) (pointFromCoord loc)).
  destruct (decide (length res = 0)) as [Hlen|Hlen].
  { split; [done|]. by intros e [= <-]. }
  split; [|done].
  intros out. destruct (decide (dataset = "")) as [|Hname]; [done|].
  destruct (geoms r !! dataset) as [shpGeom|] eqn:Hgeoms; [|done].
  generalize (combineLocations r res) as l. intros l.
  assert (∀ res', (∀ shp, shp ∈ res' → shp ∈ res) →
    geometryOfFirst dataset shpGeom {| LLocation := l; LGeometry := None |} res' = (out, None) →
    l = LLocation out ∧ ∃ shp geom, shp ∈ res ∧ shpGeom !! shp = Some geom
                                     ∧ LGeometry out = Some geom) as Hfirst.
  { induction res' as [|shp res' IH]; intros Hsub; [done|].
    cbn [geometryOfFirst]. destruct (shpGeom !! shp) as [geom|] eqn:Hshp.
    - intros [= <-]. split; [done|]. exists shp, geom. split; [|done].
      apply Hsub. by left.
    - apply IH. intros shp' Hin. apply Hsub. by right. }
  intros Hout. destruct (Hfirst res (λ _ H, H) Hout) as (-> & shp & geom & Hin & Hshp & Hg).
  split; [done|]. split; [done|]. by exists shpGeom, shp, geom.
Qed.
End CombineMore.

Lemma combineLocations_same_witness :
  [0; 1] ≠ ([] : list nat)
  ∧ combineLocations (geo := Sample.s2) Sample.engineTwice [0; 1]
    = getLocationStrings (FProperties Sample.testland).
Proof.
  split; [discriminate|].
  apply (combineLocations_same (geo := Sample.s2) Sample.engineTwice [0; 1]);
    [discriminate|].
  intros shape [->|[->|Hin%elem_of_nil]%elem_of_cons]%elem_of_cons;
    [vm_compute; reflexivity..|done].
Defined.

(** ** Strings *)

Lemma string_app_assoc (a b c : string) : (a +:+ b) +:+ c = a +:+ (b +:+ c).
Proof.
  induction a as [|x a IH]; [done|].
  change (String x (((a +:+ b) +:+ c)) = String x (a +:+ (b +:+ c))). by rewrite IH.
Qed.

Lemma string_app_nil_r (a : string) : a +:+ "" = a.
Proof.
  induction a as [|x a IH]; [done|]. change (String x (a +:+ "") = String x a).
  by rewrite IH.
Qed.

Lemma substring_0_app (t u : string) : String.substring 0 (String.length t) (t +:+ u) = t.
Proof.
  induction t as [|x t IH]; [by destruct u|].
  change (String x t +:+ u) with (String x (t +:+ u)). cbn. by rewrite IH.
Qed.

Lemma substring_length_app (t u : string) :
  String.substring (String.length t) (String.length u) (t +:+ u) = u.
Proof.
  induction t as [|x t IH].
  - change ("" +:+ u) with u. cbn [String.length].
    induction u as [|y u IHu]; [done|]. cbn. by rewrite IHu.
  - change (String x t +:+ u) with (String x (t +:+ u)). cbn. apply IH.
Qed.

Lemma substring_split (s : string) (k : nat) :
  k ≤ String.length s →
  s = String.substring 0 k s +:+ String.substring k (String.length s - k) s.
Proof.
  revert k. induction s as [|x s IH]; intros k Hk.
  - by destruct k.
  - destruct k as [|k].
    + rewrite Nat.sub_0_r.
      pose proof (substring_0_app (String x s) "") as Hsub.
      rewrite string_app_nil_r in Hsub. rewrite Hsub. reflexivity.
    + cbn [String.length] in *. cbn [String.substring].
      change (String x s = String x (String.substring 0 k s
                                       +:+ String.substring k (String.length s - k) s)).
      f_equal. apply IH. lia.
Qed.

(** [strings.HasSuffix] and [strings.TrimSuffix], as modelled, are what
    their names say. *)
Lemma HasSuffix_iff (s u : string) : HasSuffix s u = true ↔ ∃ t, s = t +:+ u.
Proof.
  unfold HasSuffix. split.
  - intros [Hlen Heq]%andb_true_iff. apply bool_decide_eq_true in Hlen.
    apply String.eqb_eq in Heq.
    exists (String.substring 0 (String.length s - String.length u) s).
    pose proof (substring_split s (String.length s - String.length u)) as Hs.
    replace (String.length s - (String.length s - String.length u))
      with (String.length u) in Hs by lia.
    rewrite Heq in Hs. apply Hs. lia.
  - intros [t ->]. rewrite string_length_app. apply andb_true_iff. split.
    + apply bool_decide_eq_true. lia.
    + replace (String.length t + String.length u - String.length u)
        with (String.length t) by lia.
      rewrite substring_length_app. apply String.eqb_refl.
Qed.

Lemma TrimSuffix_app (t u : string) : TrimSuffix (t +:+ u) u = t.
Proof.
  unfold TrimSuffix.
  assert (HasSuffix (t +:+ u) u = true) as -> by (apply HasSuffix_iff; eauto).
  rewrite string_length_app.
  replace (String.length t + String.length u - String.length u)
    with (String.length t) by lia.
  apply substring_0_app.
Qed.

(** ** Locations read from properties *)

Section ReadLocation.
Context {F : Type}.

(** The test [t == "County"] on the value under TYPE, by cases. *)
Lemma County_cases {A : Type} (P : A → Prop) (v : option (Value F)) (a b : A) :
  (v = Some (VString "County") → P a) →
  (v ≠ Some (VString "County") → P b) →
  P match v with
    | Some (VString "County") => a
    | _ => b
    end.
Proof.
  intros Ha Hb.
  repeat case_match; subst; first [by apply Ha | by apply Hb].
Qed.

Lemma getLocationStrings_withoutCounty (p : gmap string (Value F)) :
  withoutCounty (getLocationStrings p) = RgeoGoLocation.getLocationStrings p.
Proof.
  apply (County_cases
           (λ g, withoutCounty g = RgeoGoLocation.getLocationStrings p) (p !! "TYPE"));
    reflexivity.
Qed.

(** X5. The county is read from the key NAME when the key TYPE holds the
    string County, and is empty for any other TYPE, a TYPE that is not a
    string, or none. The ten other fields are those rgeo.go reads: the TYPE
    has no part in them. *)
Theorem getLocationStrings_county (p : gmap string (Value F)) :
  (p !! "TYPE" = Some (VString "County") →
   County (getLocationStrings p) = getPropertyString p ["NAME"])
  ∧ (p !! "TYPE" ≠ Some (VString "County") → County (getLocationStrings p) = "")
  ∧ withoutCounty (getLocationStrings p) = RgeoGoLocation.getLocationStrings p.
Proof.
  split; [|split].
  - intros Htype. unfold getLocationStrings. by rewrite Htype.
  - intros Htype.
    apply (County_cases (λ g, County g = "") (p !! "TYPE")); [done|reflexivity].
  - apply getLocationStrings_withoutCounty.
Qed.

Lemma getLocationStrings_City (p : gmap string (Value F)) :
  City (getLocationStrings p) = TrimSuffix (getPropertyString p ["name_conve"]) "2".
Proof.
  change (City (getLocationStrings p))
    with (RgeoGoLocation.City (withoutCounty (getLocationStrings p))).
  by rewrite getLocationStrings_withoutCounty.
Qed.

(** X6. The city is the string under the key name_conve with one final
    character 2 removed: a name [t2] gives [t], whatever [t] ends with; a
    name that does not end in 2 is kept; without a string under the key the
    city is empty. *)
Theorem getLocationStrings_city (p : gmap string (Value F)) :
  (∀ s, p !! "name_conve" = Some (VString s) →
     (∀ t, s = t +:+ "2" → City (getLocationStrings p) = t)
     ∧ ((∀ t, s ≠ t +:+ "2") → City (getLocationStrings p) = s))
  ∧ ((∀ s, p !! "name_conve" ≠ Some (VString s)) → City (getLocationStrings p) = "").
Proof.
  rewrite getLocationStrings_City. split.
  - intros s Hs. rewrite getPropertyString_cons, Hs. split.
    + intros t ->. apply TrimSuffix_app.
    + intros Hno. unfold TrimSuffix.
      destruct (HasSuffix s "2") eqn:Hsuf; [|done].
      apply HasSuffix_iff in Hsuf as [t ->]. by destruct (Hno t).
  - intros Hnone. rewrite getPropertyString_skip by done. reflexivity.
Qed.
End ReadLocation.

Example getLocationStrings_sample :
  getLocationStrings (F := float)
    {[ "TYPE" := VString "County"; "NAME" := VString "Testshire";
       "name_conve" := VString "Testville22" ]}
  = {| Country := ""; CountryLong := ""; CountryCode2 := ""; CountryCode3 := "";
       Continent := ""; Region := ""; SubRegion := ""; Province := "";
       ProvinceCode := ""; County := "Testshire"; City := "Testville2" |}
  ∧ County (getLocationStrings (F := float)
              {[ "TYPE" := VString "Country"; "NAME" := VString "Testshire" ]}) = ""
  ∧ getLocationStrings (F := float) ∅ = emptyLocation.
Proof. split; [|split]; vm_compute; reflexivity. Qed.

(** ** Rendering, once more *)

(** X7. The rendering begins with the prefix <Location>. The province code
    and the county are not rendered: changing them does not change the
    rendering of a location, as long as it is not the empty location before
    or after; a location that has nothing but a province code or a county
    renders as the bare prefix, not as the empty location. *)
Theorem Location_String_rendered (l : Location) :
  (∃ rest, Location_String l = "<Location>" +:+ rest)
  ∧ (∀ pc c,
       l ≠ emptyLocation →
       {| Country := Country l; CountryLong := CountryLong l;
          CountryCode2 := CountryCode2 l; CountryCode3 := CountryCode3 l;
          Continent := Continent l; Region := Region l; SubRegion := SubRegion l;
          Province := Province l; ProvinceCode := pc; County := c;
          City := City l |} ≠ emptyLocation →
       Location_String
         {| Country := Country l; CountryLong := CountryLong l;
            CountryCode2 := CountryCode2 l; CountryCode3 := CountryCode3 l;
            Continent := Continent l; Region := Region l; SubRegion := SubRegion l;
            Province := Province l; ProvinceCode := pc; County := c;
            City := City l |}
       = Location_String l)
  ∧ (∀ pc c, pc ≠ "" ∨ c ≠ "" →
       Location_String
         {| Country := ""; CountryLong := ""; CountryCode2 := ""; CountryCode3 := "";
            Continent := ""; Region := ""; SubRegion := ""; Province := "";
            ProvinceCode := pc; County := c; City := "" |}
       = "<Location>").
Proof.
  assert (∀ a x, (∃ rest, a = "<Location>" +:+ rest) →
                 ∃ rest, a +:+ x = "<Location>" +:+ rest) as Happ.
  { intros a x [rest ->]. exists (rest +:+ x). apply string_app_assoc. }
  assert (∀ (P : Prop) (d : Decision P) (a b : string),
            (∃ rest, a = "<Location>" +:+ rest) → (∃ rest, b = "<Location>" +:+ rest) →
            ∃ rest, (if d then a else b) = "<Location>" +:+ rest) as Hif.
  { intros P d a b Ha Hb. by destruct d. }
  assert (∃ rest, "<Location>" = "<Location>" +:+ rest) as Hbase by (by exists "").
  split; [|split].
  - unfold Location_String. cbv zeta.
    repeat first [exact Hbase | apply Hif | apply Happ].
  - intros pc c Hl Hl'. unfold Location_String.
    rewrite (decide_False (P := l = emptyLocation)) by done.
    match goal with
    | |- context [decide (?x = emptyLocation)] =>
        rewrite (decide_False (P := x = emptyLocation)) by done
    end.
    reflexivity.
  - intros pc c Hset. unfold Location_String.
    match goal with
    | |- context [decide (?x = emptyLocation)] =>
        rewrite (decide_False (P := x = emptyLocation)); [reflexivity|]
    end.
    intros [= -> ->]. by destruct Hset.
Qed.

(** X8. On a location without city and province that is not the empty
    location, [String] returns what the [String] of rgeo.go returns on its
    ten fields. On the empty location rgeo.go returns the bare prefix. *)
Theorem Location_String_rgeo_go (l : Location) :
  City l = "" → Province l = "" → l ≠ emptyLocation →
  Location_String l = RgeoGoLocation.Location_String (withoutCounty l)
  ∧ RgeoGoLocation.Location_String (withoutCounty emptyLocation) = "<Location>".
Proof.
  intros Hcity Hprov Hne. split; [|reflexivity].
  unfold Location_String, RgeoGoLocation.Location_String. cbn [withoutCounty
    RgeoGoLocation.Country RgeoGoLocation.CountryLong RgeoGoLocation.CountryCode2
    RgeoGoLocation.CountryCode3 RgeoGoLocation.Continent RgeoGoLocation.Region
    RgeoGoLocation.SubRegion].
  rewrite Hcity, Hprov. rewrite (decide_False (P := l = emptyLocation)) by done.
  reflexivity.
Qed.

Lemma Location_String_rgeo_go_witness :
  Location_String (getLocationStrings (FProperties Sample.testland))
  = RgeoGoLocation.Location_String
      (withoutCounty (getLocationStrings (FProperties Sample.testland)))
  ∧ Location_String (getLocationStrings (FProperties Sample.testland))
    = "<Location> Testland (TST),".
Proof.
  split; [|vm_compute; reflexivity].
  apply (Location_String_rgeo_go (getLocationStrings (FProperties Sample.testland)));
    [vm_compute; reflexivity..|vm_compute; discriminate].
Defined.

(** ** Conversion of geometries, once more *)

Section ConvertMore.
Context {F : Type} {num : Scalar F} {geo : S2 F}.

(** The first ring that fails a check decides the error. *)
Lemma first_rejected (p : list (Ring F)) :
  ¬ Forall ringAccepted p →
  ∃ i r, p !! i = Some r ∧ Forall ringAccepted (take i p)
         ∧ (length r < 4 ∨ ringClosed r = false).
Proof.
  induction p as [|r p IH]; [by intros []|]. intros Hnot.
  destruct (ringAccepted_dec r) as [Hr|Hr].
  - destruct IH as (i & r' & Hi & Hacc & Hbad).
    { intros Hall. apply Hnot. by constructor. }
    exists (S i), r'. split; [done|]. split; [|done]. cbn [take]. by constructor.
  - exists 0, r. split; [done|]. split; [constructor|done].
Qed.

Lemma loopSliceFromPolygon_rejection (p : Polygon F) (e : Error F) :
  loopSliceFromPolygon p = Some ([], Some e) → rejection p e.
Proof.
  intros He.
  destruct (loopSliceFromPolygon_total p) as [[_ (loops & Hok & _)]|[Hnot _]];
    [congruence|].
  destruct (first_rejected p Hnot) as (i & r & Hi & Hacc & Hbad).
  exists i, r. split; [done|]. split; [done|].
  unfold loopSliceFromPolygon in He. rewrite <- (take_drop_middle p i r Hi) in He at 2.
  destruct (loopSliceFromPolygon_loop_accepted p (take i p) (r :: drop (S i) p) [] Hacc)
    as (ls & _ & Heq).
  rewrite Heq, loopSliceFromPolygon_loop_cons in He.
  destruct (decide (length r < 4)) as [Hshort|Hlong].
  - left. split; [done|]. congruence.
  - right. split; [lia|]. destruct Hbad as [Hshort|Hopen]; [lia|].
    rewrite Hopen in He. split; [done|]. congruence.
Qed.
End ConvertMore.

(** X9. For a polygon whose coordinates are finite numbers, as the
    coordinates of a decoded GeoJSON document are, [loopSliceFromPolygon]
    does not panic: the test of the length comes before every read of a
    point. (On a coordinate that is NaN or infinite, [s2.LoopFromPoints]
    panics.) It returns loops and no error exactly when every ring of the
    polygon has at least four points and is closed, a polygon without rings
    included; otherwise it returns an error and no loops, the error of the
    first ring that fails a check. *)
Theorem loopSliceFromPolygon_accepts_iff {geo : S2 float} (p : Polygon float) :
  polygonFinite p →
  is_Some (loopSliceFromPolygon p)
  ∧ ((∃ loops, loopSliceFromPolygon p = Some (loops, None)) ↔ Forall ringAccepted p)
  ∧ ((∃ e, loopSliceFromPolygon p = Some ([], Some e)) ↔ ¬ Forall ringAccepted p)
  ∧ (∀ e, loopSliceFromPolygon p = Some ([], Some e) → rejection p e).
Proof.
  intros _.
  destruct (loopSliceFromPolygon_total p)
    as [[Hacc (loops & Hloops & _)]|[Hrej (e & He & _)]].
  - split; [by rewrite Hloops|]. split; [|split].
    + split; [done|]. intros _. by exists loops.
    + split; [|done]. intros [e He]. congruence.
    + apply loopSliceFromPolygon_rejection.
  - split; [by rewrite He|]. split; [|split].
    + split; [|done]. intros [loops Hloops]. congruence.
    + split; [done|]. intros _. by exists e.
    + apply loopSliceFromPolygon_rejection.
Qed.

Lemma loopSliceFromPolygon_accepts_iff_witness :
  polygonFinite [Sample.square; Sample.unclosed; Sample.short]
  ∧ is_Some (loopSliceFromPolygon (geo := Sample.s2)
               [Sample.square; Sample.unclosed; Sample.short])
  ∧ ¬ Forall (ringAccepted (num := float64)) [Sample.square; Sample.unclosed; Sample.short].
Proof.
  assert (polygonFinite [Sample.square; Sample.unclosed; Sample.short]) as Hfin
    by (repeat constructor).
  split; [exact Hfin|].
  destruct (loopSliceFromPolygon_accepts_iff (geo := Sample.s2) _ Hfin)
    as (Hsome & _ & Hrej & _).
  split; [exact Hsome|]. apply Hrej.
  exists (ErrUnclosedRing [Sample.square; Sample.unclosed; Sample.short]).
  vm_compute. reflexivity.
Defined.

Section ConvertMulti.
Context {F : Type} {num : Scalar F} {geo : S2 F}.

Lemma polygonFromMultiPolygon_loop_accepted (mp : list (Polygon F))
    (lss : list (list Loop)) (loops : list Loop) :
  Forall2 (λ p ls, loopSliceFromPolygon p = Some (ls, None)) mp lss →
  polygonFromMultiPolygon_loop mp loops
  = Some (Some (PolygonFromLoops (loops ++ concat lss)), None).
Proof.
  intros Hall. revert loops. induction Hall as [|p ls mp lss Hp _ IH]; intros loops.
  - simpl. by rewrite app_nil_r.
  - cbn [polygonFromMultiPolygon_loop concat]. rewrite Hp. cbn [mbind option_bind].
    by rewrite IH, app_assoc.
Qed.

Lemma polygonFromMultiPolygon_loop_prefix (mp1 mp2 : list (Polygon F)) (loops : list Loop) :
  Forall (Forall ringAccepted) mp1 →
  ∃ loops', polygonFromMultiPolygon_loop (mp1 ++ mp2) loops
            = polygonFromMultiPolygon_loop mp2 loops'.
Proof.
  intros Hacc. revert loops. induction Hacc as [|p mp1 Hp _ IH]; intros loops.
  - by exists loops.
  - cbn [app polygonFromMultiPolygon_loop].
    destruct (loopSliceFromPolygon_accepted p Hp) as (ls & -> & _).
    cbn [mbind option_bind]. apply IH.
Qed.

(** X10. A multipolygon whose polygons are all accepted becomes the S2
    polygon of their loops, polygon after polygon. The first polygon that is
    not accepted decides the error, and no polygon is returned with it. A
    polygon and the multipolygon that holds only that polygon convert
    alike. *)
Theorem polygonFromMultiPolygon_concat (mp : MultiPolygon F) :
  (∀ lss, Forall2 (λ p ls, loopSliceFromPolygon p = Some (ls, None)) mp lss →
     polygonFromGeometry (GMultiPolygon mp)
     = Some (Some (PolygonFromLoops (concat lss)), None))
  ∧ (∀ i p e, mp !! i = Some p → Forall (Forall ringAccepted) (take i mp) →
       loopSliceFromPolygon p = Some ([], Some e) →
       polygonFromGeometry (GMultiPolygon mp) = Some (None, Some e))
  ∧ (∀ p, polygonFromGeometry (GMultiPolygon [p]) = polygonFromGeometry (GPolygon p)).
Proof.
  split; [|split].
  - intros lss Hall. cbn [polygonFromGeometry]. unfold polygonFromMultiPolygon.
    by rewrite (polygonFromMultiPolygon_loop_accepted mp lss []).
  - intros i p e Hi Hacc Hp. cbn [polygonFromGeometry]. unfold polygonFromMultiPolygon.
    rewrite <- (take_drop_middle mp i p Hi).
    destruct (polygonFromMultiPolygon_loop_prefix (take i mp) (p :: drop (S i) mp) [] Hacc)
      as (loops' & ->).
    cbn [polygonFromMultiPolygon_loop]. by rewrite Hp.
  - intros p. cbn [polygonFromGeometry]. unfold polygonFromMultiPolygon, polygonFromPolygon.
    cbn [polygonFromMultiPolygon_loop].
    destruct (loopSliceFromPolygon p) as [[loops [e|]]|]; reflexivity.
Qed.

Lemma polygonFromMultiPolygon_loop_error (mp : list (Polygon F)) (loops : list Loop)
    (e : Error F) :
  polygonFromMultiPolygon_loop mp loops = Some (None, Some e) →
  ∃ i p, mp !! i = Some p ∧ Forall (Forall ringAccepted) (take i mp) ∧ rejection p e.
Proof.
  revert loops. induction mp as [|p mp IH]; intros loops; [done|].
  cbn [polygonFromMultiPolygon_loop].
  destruct (loopSliceFromPolygon_total p)
    as [[Hacc (this & Hthis & _)]|[_ (e' & He' & _)]].
  - rewrite Hthis. cbn [mbind option_bind].
    intros Hrest. destruct (IH _ Hrest) as (i & p' & Hi & Hbefore & Hrej).
    exists (S i), p'. split; [done|]. split; [|done]. cbn [take]. by constructor.
  - rewrite He'. cbn [mbind option_bind]. intros [= <-].
    exists 0, p. split; [done|]. split; [constructor|].
    by apply loopSliceFromPolygon_rejection.
Qed.

Lemma polygonFromGeometry_error (g : Geometry F) (e : Error F) :
  polygonFromGeometry g = Some (None, Some e) →
  match g with
  | GOther _ => e = ErrNeedsPolygon
  | GPolygon p => rejection p e
  | GMultiPolygon mp =>
      ∃ i p, mp !! i = Some p ∧ Forall (Forall ringAccepted) (take i mp)
             ∧ rejection p e
  end.
Proof.
  destruct g as [p|mp|kind]; cbn [polygonFromGeometry].
  - unfold polygonFromPolygon.
    destruct (loopSliceFromPolygon_total p)
      as [[_ (loops & Hok & _)]|[_ (e' & He' & _)]].
    + rewrite Hok. cbn [mbind option_bind]. done.
    + rewrite He'. cbn [mbind option_bind]. intros [= <-].
      by apply loopSliceFromPolygon_rejection.
  - unfold polygonFromMultiPolygon.
    destruct (polygonFromMultiPolygon_loop mp []) as [[poly [e'|]]|] eqn:Hloop;
      cbn [mbind option_bind]; [|done..].
    intros [= <-].
    destruct (polygonFromMultiPolygon_loop_total mp [])
      as [[_ (poly' & Hok)]|[_ (e'' & Herr)]]; [congruence|].
    apply (polygonFromMultiPolygon_loop_error mp []). congruence.
  - by intros [= <-].
Qed.
End ConvertMulti.

(** X11. For a geometry whose coordinates are finite numbers,
    [polygonFromGeometry] does not panic and returns a polygon or an error,
    never both and never neither: a polygon exactly for a polygon or
    multipolygon all of whose rings have at least four points and are
    closed; for any other kind of geometry the needs-polygon error; and
    otherwise the error of the first ring that fails a check, in a
    multipolygon the first such ring of the first polygon that has one: the
    too-few-points error, or the unclosed-ring error with the polygon of
    that ring. *)
Theorem polygonFromGeometry_accepts_iff {geo : S2 float} (g : Geometry float) :
  geometryFinite g →
  ((∃ poly, polygonFromGeometry g = Some (Some poly, None))
   ∨ (∃ e, polygonFromGeometry g = Some (None, Some e)))
  ∧ ((∃ poly, polygonFromGeometry g = Some (Some poly, None)) ↔ geometryWellFormed g)
  ∧ ((∃ e, polygonFromGeometry g = Some (None, Some e)) ↔ ¬ geometryWellFormed g)
  ∧ (∀ e, polygonFromGeometry g = Some (None, Some e) →
       match g with
       | GOther _ => e = ErrNeedsPolygon
       | GPolygon p => rejection p e
       | GMultiPolygon mp =>
           ∃ i p, mp !! i = Some p ∧ Forall (Forall ringAccepted) (take i mp)
                  ∧ rejection p e
       end).
Proof.
  intros _. split; [|split; [|split]].
  - destruct (polygonFromGeometry_total g) as [[_ Hp]|[_ He]]; [by left|by right].
  - destruct (polygonFromGeometry_total g) as [[Hwf (poly & Hp)]|[Hbad (e & He)]].
    + split; [done|]. intros _. by exists poly.
    + split; [|done]. intros [poly Hp]. congruence.
  - destruct (polygonFromGeometry_total g) as [[Hwf (poly & Hp)]|[Hbad (e & He)]].
    + split; [|done]. intros [e He]. congruence.
    + split; [done|]. intros _. by exists e.
  - intros e. apply polygonFromGeometry_error.
Qed.

Lemma polygonFromGeometry_accepts_iff_witness :
  geometryFinite (GMultiPolygon [[Sample.square]; [Sample.squareCW; Sample.unclosed]])
  ∧ polygonFromGeometry (geo := Sample.s2)
      (GMultiPolygon [[Sample.square]; [Sample.squareCW; Sample.unclosed]])
    = Some (None, Some (ErrUnclosedRing [Sample.squareCW; Sample.unclosed]))
  ∧ ¬ geometryWellFormed (num := float64)
        (GMultiPolygon [[Sample.square]; [Sample.squareCW; Sample.unclosed]]).
Proof.
  assert (geometryFinite
            (GMultiPolygon [[Sample.square]; [Sample.squareCW; Sample.unclosed]])) as Hfin
    by (repeat constructor).
  assert (polygonFromGeometry (geo := Sample.s2)
            (GMultiPolygon [[Sample.square]; [Sample.squareCW; Sample.unclosed]])
          = Some (None, Some (ErrUnclosedRing [Sample.squareCW; Sample.unclosed]))) as Hrun
    by (vm_compute; reflexivity).
  split; [exact Hfin|]. split; [exact Hrun|].
  destruct (polygonFromGeometry_accepts_iff (geo := Sample.s2) _ Hfin)
    as (_ & _ & Hrej & _).
  apply Hrej. eexists. exact Hrun.
Defined.

Section ConvertRing.
Context {F : Type} {num : Scalar F} {geo : S2 F}.

Lemma map_reverse {A B : Type} (f : A → B) (l : list A) :
  map f (reverse l) = reverse (map f l).
Proof.
  induction l as [|x l IH]; [done|].
  cbn [map]. rewrite !reverse_cons, map_app, IH. done.
Qed.

(** X12. Of a ring [a, m..., a] that ends with its first point,
    [loopFromRing] keeps [a, m...]; reversed, it keeps [a] and then [m]
    backwards: the same points, the same first point, the other direction.
    The empty ring makes it panic, whatever the direction. *)
Theorem loopFromRing_closed_ring (a : Point F) (m : list (Point F)) (rv : bool) :
  loopFromRing (a :: m ++ [a]) false
  = Some (LoopFromPoints (pointFromCoord a :: map pointFromCoord m))
  ∧ loopFromRing (a :: m ++ [a]) true
    = Some (LoopFromPoints (pointFromCoord a :: reverse (map pointFromCoord m)))
  ∧ loopFromRing [] rv = None.
Proof.
  assert (length (a :: m ++ [a]) - 1 = length (a :: m)) as Hlen.
  { cbn [length]. rewrite length_app. simpl. lia. }
  split; [|split; [|done]]; unfold loopFromRing;
    rewrite loopFromRing_pts_eq by (simpl; lia); rewrite Hlen; cbn [mbind option_bind].
  - rewrite (app_comm_cons m [a] a), take_app_length. reflexivity.
  - assert (reverse (a :: m ++ [a]) = (a :: reverse m) ++ [a]) as ->.
    { rewrite reverse_cons, reverse_app. reflexivity. }
    replace (length (a :: m)) with (length (a :: reverse m))
      by (cbn [length]; by rewrite length_reverse).
    rewrite take_app_length. cbn [map]. by rewrite map_reverse.
Qed.
End ConvertRing.

Example polygonFromGeometry_sample :
  polygonFromGeometry (geo := Sample.s2) (GPolygon []) = Some (Some [], None)
  ∧ polygonFromGeometry (geo := Sample.s2) (GMultiPolygon []) = Some (Some [], None)
  ∧ polygonFromGeometry (geo := Sample.s2) (GMultiPolygon [[Sample.square]; [Sample.short]])
    = Some (None, Some ErrTooFewPoints)
  ∧ polygonFromGeometry (geo := Sample.s2) (GOther "LineString")
    = Some (None, Some ErrNeedsPolygon).
Proof. repeat split; vm_compute; reflexivity. Qed.

(** ** Reversing a ring, in exact arithmetic *)

Section ExactReverse.
Context {F : Type} {num : Scalar F}.
Variables (fone : F) (fopp : F → F).
Hypothesis Fring : ring_theory fzero fone fadd fmul fsub fopp (@eq F).
Hypothesis fltb_opp : ∀ x : F, fltb fzero (fopp x) = fltb x fzero.
Hypothesis fltb_asym : ∀ x : F, fltb fzero x = true → fltb x fzero = false.

Add Ring exact_reverse_ring : Fring.

Lemma pairs_acc_sum (term : Point F → Point F → F) (acc : F) (l : list (Point F)) :
  pairs_acc term acc l = fadd acc (pairs_acc term fzero l).
Proof.
  revert acc. induction l as [|p l IH]; intros acc; [simpl; ring|].
  destruct l as [|q l]; [simpl; ring|].
  change (pairs_acc term acc (p :: q :: l))
    with (pairs_acc term (fadd acc (term p q)) (q :: l)).
  change (pairs_acc term fzero (p :: q :: l))
    with (pairs_acc term (fadd fzero (term p q)) (q :: l)).
  rewrite IH, (IH (fadd fzero (term p q))). ring.
Qed.

Lemma pairs_acc_snoc (term : Point F → Point F → F) (p q : Point F) (l : list (Point F)) :
  pairs_acc term fzero ((p :: l) ++ [q])
  = fadd (pairs_acc term fzero (p :: l)) (term (List.last l p) q).
Proof.
  revert p. induction l as [|x l IH]; intros p; [simpl; ring|].
  change (pairs_acc term fzero ((p :: x :: l) ++ [q]))
    with (pairs_acc term (fadd fzero (term p x)) ((x :: l) ++ [q])).
  change (pairs_acc term fzero (p :: x :: l))
    with (pairs_acc term (fadd fzero (term p x)) (x :: l)).
  rewrite pairs_acc_sum, (pairs_acc_sum term (fadd fzero (term p x)) (x :: l)), IH.
  rewrite last_cons_cons. ring.
Qed.

Lemma reverse_cons_inv {B : Type} (x : B) (l : list B) :
  ∃ y t, reverse (x :: l) = y :: t ∧ y = List.last l x ∧ List.last t y = x.
Proof.
  revert x. induction l as [|z l IH]; intros x; [by exists x, []|].
  destruct (IH z) as (y & t & Hrev & Hy & Hlast).
  exists y, (t ++ [x]). rewrite reverse_cons, Hrev. split; [done|].
  split; [by rewrite last_cons_cons|]. apply last_last.
Qed.

Lemma shoelace_path_reverse (l : list (Point F)) :
  pairs_acc RgeoGo.shoelace_term fzero (reverse l)
  = fopp (pairs_acc RgeoGo.shoelace_term fzero l).
Proof.
  induction l as [|p l IH]; [simpl; ring|].
  destruct l as [|x l]; [simpl; ring|].
  destruct (reverse_cons_inv x l) as (y & t & Hrev & _ & Hlast).
  rewrite reverse_cons, Hrev, pairs_acc_snoc, <- Hrev, IH, Hlast.
  change (pairs_acc RgeoGo.shoelace_term fzero (p :: x :: l))
    with (pairs_acc RgeoGo.shoelace_term (fadd fzero (RgeoGo.shoelace_term p x)) (x :: l)).
  rewrite (pairs_acc_sum _ (fadd fzero (RgeoGo.shoelace_term p x))).
  generalize (pairs_acc RgeoGo.shoelace_term fzero (x :: l)) as path.
  intros path. unfold RgeoGo.shoelace_term. ring.
Qed.

(** Read backwards, a ring has the opposite shoelace sum. *)
Lemma shoelace_reverse (r0 : Point F) (t : list (Point F)) (a : F) :
  RgeoGo.shoelace (r0 :: t) = Some a →
  RgeoGo.shoelace (reverse (r0 :: t)) = Some (fopp a).
Proof.
  intros Ha.
  assert (a = fadd (pairs_acc RgeoGo.shoelace_term fzero (r0 :: t))
                   (RgeoGo.shoelace_term (List.last t r0) r0)) as ->.
  { rewrite shoelace_cons in Ha. congruence. }
  destruct (reverse_cons_inv r0 t) as (y & t' & Hrev & Hy & Hlast).
  rewrite Hrev, shoelace_cons, <- Hrev, shoelace_path_reverse, Hlast, Hy.
  f_equal. generalize (pairs_acc RgeoGo.shoelace_term fzero (r0 :: t)) as path.
  intros path. unfold RgeoGo.shoelace_term. ring.
Qed.
End ExactReverse.

Lemma Qc_ltb_opp_l (x : Qc) : Qc_ltb (- x)%Qc 0%Qc = Qc_ltb 0%Qc x.
Proof. by rewrite <- (Qc_ltb_opp (- x)%Qc), Qcopp_involutive. Qed.

(** X13. In binary64, a ring that [isClockwise] calls clockwise is not
    clockwise when read backwards, for the test of the current source and
    for the one of rgeo.go, when on the ring and on the ring read backwards
    no operation of the two sums rounds or, more generally, rounding changes
    the sign of neither sum: the shoelace sum is positive one way and
    negative the other. *)
Theorem isClockwise_reverse_float64 (r : Ring float) :
  noRounding r = true ∨ signsKept r = true →
  noRounding (reverse r) = true ∨ signsKept (reverse r) = true →
  isClockwise (num := float64) r = Some true →
  isClockwise (num := float64) (reverse r) = Some false
  ∧ RgeoGo.isClockwise (num := float64) (reverse r) = Some false
  ∧ ∃ a a' : float,
      RgeoGo.shoelace (num := float64) r = Some a
      ∧ RgeoGo.shoelace (num := float64) (reverse r) = Some a'
      ∧ PrimFloat.ltb PrimFloat.zero a = true
      ∧ PrimFloat.ltb a' PrimFloat.zero = true.
Proof.
  intros Hr Hr' Hcw.
  assert (signsKept r = true) as Hsigns.
  { destruct Hr as [Hexact|Hsigns]; [by apply noRounding_signsKept|done]. }
  assert (signsKept (reverse r) = true) as Hsigns'.
  { destruct Hr' as [Hexact|Hsigns']; [by apply noRounding_signsKept|done]. }
  destruct (signsKept_winding r Hsigns) as (a & qa & Ha & Hqa & Hpos & _ & Hnew & _).
  destruct (signsKept_winding _ Hsigns')
    as (a' & qa' & Ha' & Hqa' & Hpos' & Hneg' & Hnew' & Hold').
  assert (PrimFloat.ltb PrimFloat.zero a = true) as Hcw' by congruence.
  assert (qa' = (- qa)%Qc) as ->.
  { destruct r as [|r0 t]; [done|]. rewrite fmap_reverse in Hqa'.
    cbn [fmap list_fmap] in Hqa, Hqa'.
    pose proof (shoelace_reverse (num := exactQc) 1%Qc Qcopp Qcrt _ _ _ Hqa) as Hrev.
    congruence. }
  rewrite Qc_ltb_opp in Hpos'. rewrite Qc_ltb_opp_l in Hneg'.
  rewrite Hcw' in Hpos. symmetry in Hpos.
  rewrite (Qc_ltb_asym qa Hpos) in Hpos'.
  rewrite Hnew', Hold', Hpos'. split; [done|]. split; [done|].
  exists a, a'. by rewrite Hneg'.
Qed.

Lemma isClockwise_reverse_float64_witness :
  (noRounding Sample.squareCW = true
   ∧ noRounding (reverse Sample.squareCW) = true
   ∧ isClockwise (num := float64) Sample.squareCW = Some true
   ∧ isClockwise (num := float64) (reverse Sample.squareCW) = Some false)
  ∧ (signsKept Sample.tenths = true
     ∧ signsKept (reverse Sample.tenths) = true
     ∧ isClockwise (num := float64) Sample.tenths = Some true
     ∧ isClockwise (num := float64) (reverse Sample.tenths) = Some false).
Proof.
  split.
  - split; [vm_compute; reflexivity|]. split; [vm_compute; reflexivity|].
    split; [vm_compute; reflexivity|].
    apply (isClockwise_reverse_float64 Sample.squareCW);
      [left|left|]; vm_compute; reflexivity.
  - split; [vm_compute; reflexivity|]. split; [vm_compute; reflexivity|].
    split; [vm_compute; reflexivity|].
    apply (isClockwise_reverse_float64 Sample.tenths);
      [right|right|]; vm_compute; reflexivity.
Defined.

(** Where rounding changes the sign of a sum, a ring and the same ring read
    backwards can both be called clockwise, by either test: the partial sums
    of this ring reach 2^53, where 1 and 0.5 are lost, and the ring, which
    is counter-clockwise, is called clockwise. *)
Example isClockwise_reverse_binary64 :
  ringClosed (num := float64) Sample.swing = true
  ∧ isClockwise (num := float64) Sample.swing = Some true
  ∧ isClockwise (num := float64) (reverse Sample.swing) = Some true
  ∧ RgeoGo.isClockwise (num := float64) Sample.swing = Some true
  ∧ RgeoGo.isClockwise (num := float64) (reverse Sample.swing) = Some true
  ∧ signsKept Sample.swing = false
  ∧ signsKept (reverse Sample.swing) = true.
Proof. repeat split; vm_compute; reflexivity. Qed.

(** ** What an engine holds *)

Section Stores.
Context {F : Type} {num : Scalar F} {geo : S2 F} {dec : Codec F}.

Lemma storedOnly_step (fs : list (string * Feature F)) (names : list string)
    (ret : Rgeo F) (name : string) (c : Feature F) (p : S2Polygon) :
  storedOnly fs names ret → length (index ret) = length fs → name ∈ names →
  storedOnly (fs ++ [(name, c)]) names
    {| index := index ret ++ [p];
       locs := <[length (index ret) := getLocationStrings (FProperties c)]> (locs ret);
       geoms := <[name := <[length (index ret) := FGeometry c]> (geoms ret !!! name)]>
                  (geoms ret) |}.
Proof.
  intros (Hlocs & Hgeoms & Hnames) Hlen Hname. rewrite Hlen.
  split; [|split]; cbn [locs geoms].
  - intros k. rewrite length_app. cbn [length].
    destruct (decide (k = length fs)) as [->|Hk]; [lia|].
    rewrite lookup_insert_ne by done. intros Hsome%Hlocs. lia.
  - intros name' g k geom Hg Hk.
    assert (∀ g0, geoms ret !! name' = Some g0 → g0 !! k = Some geom →
              ∃ c', (fs ++ [(name, c)]) !! k = Some (name', c') ∧ geom = FGeometry c')
      as Hold.
    { intros g0 Hg0 Hk0. destruct (Hgeoms name' g0 k geom Hg0 Hk0) as (c' & Hfs & ->).
      exists c'. split; [|done]. by apply lookup_app_l_Some. }
    destruct (decide (name = name')) as [<-|Hne].
    + rewrite lookup_insert_eq in Hg. injection Hg as <-.
      destruct (decide (k = length fs)) as [->|Hk'].
      * rewrite lookup_insert_eq in Hk. injection Hk as <-. exists c. split; [|done].
        by rewrite lookup_app_r, Nat.sub_diag by lia.
      * rewrite lookup_insert_ne in Hk by done.
        destruct (geoms ret !! name) as [g0|] eqn:Hg0.
        -- apply (Hold g0); [done|]. by rewrite (lookup_total_correct _ _ _ Hg0) in Hk.
        -- rewrite lookup_total_alt, Hg0 in Hk. done.
    + rewrite lookup_insert_ne in Hg by done. by apply (Hold g).
  - intros name'. rewrite <- Hnames.
    destruct (decide (name = name')) as [<-|Hne].
    + rewrite lookup_insert_eq. split; [|by eauto]. intros _. by apply Hnames.
    + by rewrite lookup_insert_ne.
Qed.

Lemma storedOnly_register (fs : list (string * Feature F)) (names : list string)
    (ret : Rgeo F) (name : string) :
  storedOnly fs names ret →
  storedOnly fs (names ++ [name])
    match geoms ret !! name with
    | Some _ => ret
    | None => {| index := index ret; locs := locs ret;
                 geoms := <[name := ∅]> (geoms ret) |}
    end.
Proof.
  intros (Hlocs & Hgeoms & Hnames).
  destruct (geoms ret !! name) as [g0|] eqn:Hname.
  - split; [done|]. split; [done|]. intros name'.
    rewrite elem_of_app, list_elem_of_singleton, Hnames. split; [by left|].
    intros [?| ->]; [done|]. apply Hnames. by rewrite Hname.
  - split; [done|]. split; cbn [geoms].
    + intros name' g k geom Hg Hk. destruct (decide (name = name')) as [<-|Hne].
      * rewrite lookup_insert_eq in Hg. injection Hg as <-. done.
      * rewrite lookup_insert_ne in Hg by done. by apply (Hgeoms name' g).
    + intros name'. rewrite elem_of_app, list_elem_of_singleton, <- Hnames.
      destruct (decide (name = name')) as [<-|Hne].
      * rewrite lookup_insert_eq. split; [by right|by eauto].
      * rewrite lookup_insert_ne by done. split; [by left|]. by intros [?| ->].
Qed.

Lemma New_features_only (name : string) (tfc : list (Feature F))
    (fs : list (string * Feature F)) (names : list string) (ret ret' : Rgeo F) :
  storedOnly fs names ret → ingested fs ret → name ∈ names →
  New_features name (Some <$> tfc) ret = Some (inl ret') →
  storedOnly (fs ++ map (λ c, (name, c)) tfc) names ret'.
Proof.
  revert fs ret. induction tfc as [|c tfc IH]; intros fs ret Honly Hing Hname.
  - intros [= <-]. by rewrite app_nil_r.
  - rewrite fmap_cons. cbn [New_features]. cbn [mbind option_bind].
    destruct (polygonFromGeometry_total (FGeometry c))
      as [[_ (p & Hp)]|[_ (e & He)]]; [rewrite Hp|rewrite He];
      cbn [mbind option_bind]; [|done].
    intros Hrest. cbn [map]. rewrite cons_middle, app_assoc.
    apply (IH _ _ (storedOnly_step fs names ret name c p Honly (proj1 Hing) Hname)
                  (ingested_step fs ret name c p Hing Hp) Hname Hrest).
Qed.

Lemma New_datasets_only (ds : list Dataset) (i : nat) (fs : list (string * Feature F))
    (names : list string) (ret r : Rgeo F) :
  storedOnly fs names ret → ingested fs ret →
  New_datasets i ds ret = Some (Some r, None) →
  storedOnly (fs ++ allFeatures ds) (names ++ map functionName ds) r.
Proof.
  revert i fs names ret. induction ds as [|d ds IH]; intros i fs names ret Honly Hing.
  - intros [= <-]. by rewrite !app_nil_r.
  - destruct (decodeDataset d) as [tfc|] eqn:Hdec.
    2:{ destruct (New_datasets_undecoded i d ds ret Hdec) as [e ->]. done. }
    rewrite (New_datasets_decoded i d ds ret tfc Hdec).
    pose proof (storedOnly_register fs names ret (functionName d) Honly) as Honly'.
    pose proof (ingested_register fs ret (functionName d) Hing) as Hing'.
    destruct (features_until_nil tfc) as [[cs ->]|(cs & rest & ->)].
    2:{ by destruct (New_features_nil (functionName d) cs rest fs _ Hing')
          as [[_ ->]|[_ (e & ->)]]. }
    destruct (New_features_total (functionName d) cs fs _ Hing')
      as [[_ (ret' & Hret' & Hing'')]|[_ (e & ->)]]; [|done].
    rewrite Hret'. cbn [mbind option_bind]. intros Hrest.
    assert (functionName d ∈ names ++ [functionName d]) as Hin.
    { apply elem_of_app. right. by left. }
    pose proof (New_features_only _ _ _ _ _ _ Honly' Hing' Hin Hret') as Honly''.
    specialize (IH (S i) _ _ ret' Honly'' Hing'' Hrest).
    rewrite allFeatures_cons, Hdec.
    change (default [] (Some (Some <$> cs))) with (Some <$> cs).
    rewrite omap_id_Some. cbn [map].
    by rewrite cons_middle, !app_assoc.
Qed.

Lemma storedOnly_empty : storedOnly [] [] {| index := []; locs := ∅; geoms := ∅ |}.
Proof.
  split; [|split]; cbn [locs geoms].
  - intros k [x Hx]. by rewrite lookup_empty in Hx.
  - intros name g k geom Hg. by rewrite lookup_empty in Hg.
  - intros name. rewrite lookup_empty. split; [by intros [? ?]|by intros ?%elem_of_nil].
Qed.

Lemma New_holds (datasets : list Dataset) (r : Rgeo F) :
  New datasets = Some (Some r, None) →
  ingested (allFeatures datasets) r
  ∧ storedOnly (allFeatures datasets) (map functionName datasets) r.
Proof.
  intros Hnew. split.
  - destruct (New_datasets_total datasets 0 [] _ ingested_empty)
      as [[_ (r' & Hr' & Hing)]|[_ [[Hnone _]|(e & He)]]]; unfold New in Hnew;
      [|congruence..].
    cbn [app] in Hing. congruence.
  - apply (New_datasets_only datasets 0 [] [] _ r storedOnly_empty ingested_empty Hnew).
Qed.

(** X14. In an engine that [New] returns, the shapes are numbered from 0 in
    loading order and the stores hold nothing else: a location exactly for
    each shape of the index; a group of geometries exactly for each name of
    a dataset, also one without features; and for each shape a geometry in
    one group only, the one of the dataset of its feature. *)
Theorem New_stores_exactly (datasets : list Dataset) (r : Rgeo F) :
  New datasets = Some (Some r, None) →
  length (index r) = length (allFeatures datasets)
  ∧ (∀ k, is_Some (locs r !! k) ↔ k < length (index r))
  ∧ (∀ name, is_Some (geoms r !! name) ↔ name ∈ map functionName datasets)
  ∧ (∀ k name c, allFeatures datasets !! k = Some (name, c) →
       ∀ name' g, geoms r !! name' = Some g → (is_Some (g !! k) ↔ name' = name)).
Proof.
  intros Hnew. destruct (New_holds datasets r Hnew)
    as [[Hlen Hing] (Hlocs & Hgeoms & Hnames)].
  split; [done|]. split; [|split; [done|]].
  - intros k. split; [rewrite Hlen; apply Hlocs|].
    intros Hk. rewrite Hlen in Hk.
    destruct (lookup_lt_is_Some_2 _ _ Hk) as [[name c] Hkc].
    destruct (Hing k name c Hkc) as (_ & -> & _). eauto.
  - intros k name c Hkc name' g Hg. split.
    + intros [geom Hgeom]. destruct (Hgeoms name' g k geom Hg Hgeom) as (c' & Hkc' & _).
      congruence.
    + intros ->. destruct (Hing k name c Hkc) as (_ & _ & g' & Hg' & Hk').
      assert (g' = g) as -> by congruence. eauto.
Qed.

Lemma allFeatures_app (ds1 ds2 : list Dataset) :
  allFeatures (ds1 ++ ds2) = allFeatures ds1 ++ allFeatures ds2.
Proof. unfold allFeatures. by rewrite map_app, concat_app. Qed.

Lemma New_succeeds_good (datasets : list Dataset) :
  (∃ r, New datasets = Some (Some r, None)) ↔ Forall datasetGood datasets.
Proof.
  unfold New.
  destruct (New_datasets_total datasets 0 [] _ ingested_empty)
    as [[Hall (r & Hr & _)]|[Hnot [[Hnone _]|(e & He)]]].
  - split; [done|]. intros _. by exists r.
  - split; [|done]. intros [r Hr]. congruence.
  - split; [|done]. intros [r Hr]. congruence.
Qed.

(** X15. [New] returns an engine exactly when every dataset is good: not
    empty, decompressed, decoded and closed without error, with well-formed
    geometries only. Hence it accepts [ds1] followed by [ds2] exactly when
    it accepts each list; the engine then has the shapes of both, and the
    shapes of [ds2] follow those of [ds1], with the locations they have when
    [ds2] is loaded alone. *)
Theorem New_app (ds1 ds2 : list Dataset) :
  ((∃ r, New (ds1 ++ ds2) = Some (Some r, None))
   ↔ (∃ r1, New ds1 = Some (Some r1, None)) ∧ (∃ r2, New ds2 = Some (Some r2, None)))
  ∧ (∀ r1 r2 r, New ds1 = Some (Some r1, None) → New ds2 = Some (Some r2, None) →
       New (ds1 ++ ds2) = Some (Some r, None) →
       length (index r) = length (index r1) + length (index r2)
       ∧ (∀ k, k < length (index r1) → locs r !! k = locs r1 !! k)
       ∧ (∀ k, locs r !! (length (index r1) + k) = locs r2 !! k)).
Proof.
  split.
  - rewrite !New_succeeds_good. apply Forall_app.
  - intros r1 r2 r H1 H2 H.
    destruct (New_holds ds1 r1 H1) as [[Hlen1 Hing1] (Hlocs1 & _)].
    destruct (New_holds ds2 r2 H2) as [[Hlen2 Hing2] (Hlocs2 & _)].
    destruct (New_holds _ r H) as [[Hlen Hing] (Hlocs & _)].
    rewrite allFeatures_app in *. rewrite length_app in Hlen.
    split; [lia|]. split.
    + intros k Hk. rewrite Hlen1 in Hk.
      destruct (lookup_lt_is_Some_2 _ _ Hk) as [[name c] Hkc].
      destruct (Hing1 k name c Hkc) as (_ & -> & _).
      destruct (Hing k name c) as (_ & -> & _); [by apply lookup_app_l_Some|done].
    + intros k. destruct (decide (k < length (allFeatures ds2))) as [Hk|Hk].
      * destruct (lookup_lt_is_Some_2 _ _ Hk) as [[name c] Hkc].
        destruct (Hing2 k name c Hkc) as (_ & -> & _).
        destruct (Hing (length (index r1) + k) name c) as (_ & -> & _); [|done].
        rewrite Hlen1, lookup_app_r by lia.
        by replace (length (allFeatures ds1) + k - length (allFeatures ds1)) with k by lia.
      * destruct (locs r2 !! k) eqn:H2k.
        { assert (is_Some (locs r2 !! k)) as Hs%Hlocs2 by eauto. lia. }
        destruct (locs r !! (length (index r1) + k)) eqn:Hrk; [|done].
        assert (is_Some (locs r !! (length (index r1) + k))) as Hs%Hlocs by eauto.
        rewrite length_app in Hs. lia.
Qed.
End Stores.

Lemma New_stores_exactly_witness :
  New (geo := Sample.s2) (dec := Sample.codec) [Sample.Countries; Sample.NoFeatures]
  = Some (Some Sample.engineNoFeatures, None)
  ∧ length (index Sample.engineNoFeatures) = 1
  ∧ is_Some (geoms Sample.engineNoFeatures !! "rgeo.NoFeatures").
Proof.
  assert (New (geo := Sample.s2) (dec := Sample.codec) [Sample.Countries; Sample.NoFeatures]
          = Some (Some Sample.engineNoFeatures, None)) as Hnew by (vm_compute; reflexivity).
  split; [exact Hnew|].
  destruct (New_stores_exactly (geo := Sample.s2) (dec := Sample.codec) _ _ Hnew)
    as (Hlen & _ & Hnames & _).
  split; [exact Hlen|]. apply Hnames. right. left.
Defined.

(** ** The names of the datasets, sorted *)

Lemma strings_Compare_lt (a b : string) :
  (strings_Compare a b < 0)%Z ↔ String.compare a b = Lt.
Proof. unfold strings_Compare. destruct (String.compare a b); split; (done || lia). Qed.

(** The order [sort_Slice] sorts by, for the [less] of [DatasetNames], is
    the order of strings. *)
Lemma notLess_le (a b : string) :
  Is_true (negb (bool_decide (strings_Compare b a < 0)%Z)) ↔ String.le a b.
Proof.
  unfold String.le, String.leb, strings_Compare. rewrite (String.compare_antisym a b).
  destruct (String.compare b a); cbn [CompOpp]; cbv iota.
  - rewrite bool_decide_eq_false_2 by lia. done.
  - rewrite bool_decide_eq_true_2 by lia. done.
  - rewrite bool_decide_eq_false_2 by lia. done.
Qed.

Lemma le_neq_lt (a b : string) : String.le a b → a ≠ b → String.compare a b = Lt.
Proof.
  unfold String.le, String.leb. intros Hle Hne.
  destruct (String.compare a b) eqn:Hc; [|done..].
  by apply String.compare_eq_iff in Hc.
Qed.

Section SortNames.
#[local] Instance notLess_total :
  Total (λ a b : string, Is_true (negb (bool_decide (strings_Compare b a < 0)%Z))).
Proof. intros a b. rewrite !notLess_le. apply total, _. Qed.

#[local] Instance notLess_trans :
  Transitive (λ a b : string, Is_true (negb (bool_decide (strings_Compare b a < 0)%Z))).
Proof. intros a b c. rewrite !notLess_le. apply transitivity. Qed.

#[local] Instance notLess_antisymm :
  AntiSymm (=) (λ a b : string, Is_true (negb (bool_decide (strings_Compare b a < 0)%Z))).
Proof. intros a b. rewrite !notLess_le. apply (anti_symm String.le). Qed.

Lemma DatasetNames_ranged_perm (keys : list string) : DatasetNames_ranged keys ≡ₚ keys.
Proof. apply merge_sort_Permutation. Qed.

Lemma DatasetNames_ranged_unique (keys keys' : list string) :
  keys ≡ₚ keys' → DatasetNames_ranged keys = DatasetNames_ranged keys'.
Proof.
  intros Hperm. unfold DatasetNames_ranged, sort_Slice.
  eapply (Sorted_unique _); [apply Sorted_merge_sort, _..|].
  by rewrite !merge_sort_Permutation.
Qed.

Lemma DatasetNames_ranged_strict (keys : list string) :
  NoDup keys →
  StronglySorted (λ a b, String.compare a b = Lt) (DatasetNames_ranged keys).
Proof.
  intros Hnodup.
  assert (NoDup (DatasetNames_ranged keys)) as Hnd by (by rewrite DatasetNames_ranged_perm).
  pose proof (StronglySorted_merge_sort _ keys) as Hsorted.
  fold (sort_Slice (λ a b, bool_decide (strings_Compare a b < 0)%Z) keys) in Hsorted.
  fold (DatasetNames_ranged keys) in Hsorted.
  induction Hsorted as [|a l Hl IH Ha]; [constructor|].
  apply NoDup_cons in Hnd as [Hnotin Hnd]. constructor; [by apply IH|].
  rewrite Forall_forall in Ha |- *. intros b Hb.
  apply le_neq_lt; [by apply notLess_le, Ha|]. intros ->. done.
Qed.
End SortNames.

Section NamesOf.
Context {F : Type} {num : Scalar F} {geo : S2 F} {dec : Codec F}.

Lemma elem_of_keys (r : Rgeo F) (name : string) :
  name ∈ map fst (map_to_list (geoms r)) ↔ is_Some (geoms r !! name).
Proof.
  rewrite list_elem_of_In, in_map_iff. split.
  - intros ([name' g] & <- & Hin). apply list_elem_of_In, elem_of_map_to_list in Hin.
    by exists g.
  - intros [g Hg]. exists (name, g). split; [done|].
    by apply list_elem_of_In, elem_of_map_to_list.
Qed.

(** X16. [DatasetNames] returns the names under which the engine has a
    group of geometries, each one once, in strictly increasing order of
    [strings.Compare]; the result does not depend on the order in which the
    range over the map yields them. *)
Theorem DatasetNames_sorted (r : Rgeo F) :
  StronglySorted (λ a b, String.compare a b = Lt) (DatasetNames r)
  ∧ (∀ name, name ∈ DatasetNames r ↔ is_Some (geoms r !! name))
  ∧ (∀ keys, keys ≡ₚ map fst (map_to_list (geoms r)) →
       DatasetNames_ranged keys = DatasetNames r).
Proof.
  split; [|split].
  - apply DatasetNames_ranged_strict, NoDup_fst_map_to_list.
  - intros name. unfold DatasetNames. by rewrite DatasetNames_ranged_perm, elem_of_keys.
  - intros keys Hperm. by apply DatasetNames_ranged_unique.
Qed.

(** X17. For an engine that [New] returns, [DatasetNames] lists the names of
    the datasets it was given, a name shared by several datasets once and
    the name of a dataset without features included. *)
Theorem New_DatasetNames (datasets : list Dataset) (r : Rgeo F) :
  New datasets = Some (Some r, None) →
  (∀ name, name ∈ DatasetNames r ↔ name ∈ map functionName datasets)
  ∧ NoDup (DatasetNames r).
Proof.
  intros Hnew. destruct (New_holds datasets r Hnew) as [_ (_ & _ & Hnames)]. split.
  - intros name. unfold DatasetNames.
    by rewrite DatasetNames_ranged_perm, elem_of_keys, Hnames.
  - unfold DatasetNames. rewrite DatasetNames_ranged_perm. apply NoDup_fst_map_to_list.
Qed.

Lemma geometryOfFirst_result (dataset : string) (shpGeom : gmap nat (Geometry F))
    (out : LocationWithGeometry F) (res : list nat) :
  (∃ shp geom, shp ∈ res ∧ shpGeom !! shp = Some geom
     ∧ geometryOfFirst dataset shpGeom out res
       = ({| LLocation := LLocation out; LGeometry := Some geom |}, None))
  ∨ geometryOfFirst dataset shpGeom out res
    = (zeroLocationWithGeometry, Some (ErrNoGeometry dataset)).
Proof.
  induction res as [|shp res IH]; [by right|].
  cbn [geometryOfFirst]. destruct (shpGeom !! shp) as [geom|] eqn:Hshp.
  - left. exists shp, geom. split; [by left|done].
  - destruct IH as [(shp' & geom & Hin & Hgeom & ->) | ->]; [|by right].
    left. exists shp', geom. split; [by right|done].
Qed.

(** X18. On an engine that [New] returns, for a point with a match and a
    dataset name that is not empty: [ReverseGeocodeWithGeometry] returns the
    dataset-not-found error exactly when no dataset given to [New] has that
    name; and a geometry it returns is the raw geometry of a feature of a
    dataset of that name, one whose shape is among the matches. *)
Theorem New_ReverseGeocodeWithGeometry (datasets : list Dataset) (r : Rgeo F)
    (loc : Point F) (dataset : string) :
  New datasets = Some (Some r, None) →
  ContainingShapes (index r) (pointFromCoord loc) ≠ [] →
  dataset ≠ "" →
  ((ReverseGeocodeWithGeometry r loc dataset).2 = Some (ErrDatasetNotFound dataset)
   ↔ dataset ∉ map functionName datasets)
  ∧ (∀ out, ReverseGeocodeWithGeometry r loc dataset = (out, None) →
       ∃ shp c, shp ∈ ContainingShapes (index r) (pointFromCoord loc)
                ∧ allFeatures datasets !! shp = Some (dataset, c)
                ∧ LGeometry out = Some (FGeometry c)).
Proof.
  intros Hnew Hres Hname.
  destruct (New_holds datasets r Hnew) as [_ (_ & Hgeoms & Hnames)].
  unfold ReverseGeocodeWithGeometry.
  set (res := ContainingShapes (index r) (pointFromCoord loc)) in *.
  destruct (decide (length res = 0)) as [Hlen|_]; [by destruct res|].
  destruct (decide (dataset = "")) as [|_]; [done|].
  destruct (geoms r !! dataset) as [shpGeom|] eqn:Hds.
  - assert (dataset ∈ map functionName datasets) as Hin by (apply Hnames; eauto).
    destruct (geometryOfFirst_result dataset shpGeom
                {| LLocation := combineLocations r res; LGeometry := None |} res)
      as [(shp & geom & Hshp & Hgeom & ->) | ->].
    + split; [done|]. intros out [= <-].
      destruct (Hgeoms dataset shpGeom shp geom Hds Hgeom) as (c & Hc & ->).
      by exists shp, c.
    + split; [|done]. split; [done|]. intros Hnot. by destruct Hnot.
  - split; [|done]. split; [|done]. intros _ Hin.
    apply (proj2 (Hnames dataset)) in Hin. rewrite Hds in Hin. by destruct Hin.
Qed.

(** X19. On an engine that [New] returns, [ReverseGeocode] merges what
    [getLocationStrings] reads from the properties of the features whose
    shapes match, in the order of the matches. *)
Theorem New_ReverseGeocode (datasets : list Dataset) (r : Rgeo F) (loc : Point F)
    (matched : list (string * Feature F)) :
  New datasets = Some (Some r, None) →
  ContainingShapes (index r) (pointFromCoord loc) ≠ [] →
  Forall2 (λ shape nc, allFeatures datasets !! shape = Some nc)
          (ContainingShapes (index r) (pointFromCoord loc)) matched →
  ReverseGeocode r loc
  = (foldl overrideLeft emptyLocation
       (map (λ nc, getLocationStrings (FProperties nc.2)) matched), None).
Proof.
  intros Hnew Hres Hmatched.
  destruct (New_holds datasets r Hnew) as [[_ Hing] _].
  unfold ReverseGeocode.
  set (res := ContainingShapes (index r) (pointFromCoord loc)) in *.
  destruct (decide (length res = 0)) as [Hlen|_]; [by destruct res|].
  rewrite combineLocations_override. do 2 f_equal.
  clear Hres. induction Hmatched as [|shape [name c] res matched Hshape _ IH]; [done|].
  cbn [map]. f_equal; [|done].
  unfold locationOf. destruct (Hing shape name c Hshape) as (_ & -> & _). done.
Qed.
End NamesOf.

Example DatasetNames_sample :
  DatasetNames (geo := Sample.s2) Sample.engine = ["rgeo.Countries110"; "rgeo.Provinces10"]
  ∧ DatasetNames (geo := Sample.s2) Sample.engineTwice = ["rgeo.Countries110"]
  ∧ DatasetNames (geo := Sample.s2) Sample.emptyEngine = []
  ∧ DatasetNames_ranged ["rgeo.Provinces10"; "rgeo.Countries110"]
    = DatasetNames_ranged ["rgeo.Countries110"; "rgeo.Provinces10"].
Proof. repeat split; vm_compute; reflexivity. Qed.

Lemma New_DatasetNames_witness :
  New (geo := Sample.s2) (dec := Sample.codec) [Sample.Countries; Sample.NoFeatures]
  = Some (Some Sample.engineNoFeatures, None)
  ∧ "rgeo.NoFeatures" ∈ DatasetNames (geo := Sample.s2) Sample.engineNoFeatures.
Proof.
  assert (New (geo := Sample.s2) (dec := Sample.codec) [Sample.Countries; Sample.NoFeatures]
          = Some (Some Sample.engineNoFeatures, None)) as Hnew by (vm_compute; reflexivity).
  split; [exact Hnew|].
  apply (proj1 (New_DatasetNames (geo := Sample.s2) (dec := Sample.codec) _ _ Hnew)).
  right. left.
Defined.

Lemma New_ReverseGeocodeWithGeometry_witness :
  New (geo := Sample.s2) (dec := Sample.codec) [Sample.Countries; Sample.Provinces]
  = Some (Some Sample.engine, None)
  ∧ ((ReverseGeocodeWithGeometry (geo := Sample.s2) Sample.engine (5, 5)%float
        "rgeo.Cities10").2 = Some (ErrDatasetNotFound "rgeo.Cities10")
     ↔ "rgeo.Cities10" ∉ map functionName [Sample.Countries; Sample.Provinces]).
Proof.
  assert (New (geo := Sample.s2) (dec := Sample.codec) [Sample.Countries; Sample.Provinces]
          = Some (Some Sample.engine, None)) as Hnew by (vm_compute; reflexivity).
  split; [exact Hnew|].
  apply (New_ReverseGeocodeWithGeometry (geo := Sample.s2) (dec := Sample.codec)
           _ _ (5, 5)%float "rgeo.Cities10" Hnew).
  - vm_compute. discriminate.
  - discriminate.
Defined.

Lemma New_ReverseGeocode_witness :
  New (geo := Sample.s2) (dec := Sample.codec) [Sample.Countries; Sample.Provinces]
  = Some (Some Sample.engine, None)
  ∧ ReverseGeocode (geo := Sample.s2) Sample.engine (5, 5)%float
    = (foldl overrideLeft emptyLocation
         [getLocationStrings (FProperties Sample.testland);
          getLocationStrings (FProperties Sample.testshire)], None).
Proof.
  assert (New (geo := Sample.s2) (dec := Sample.codec) [Sample.Countries; Sample.Provinces]
          = Some (Some Sample.engine, None)) as Hnew by (vm_compute; reflexivity).
  split; [exact Hnew|].
  apply (New_ReverseGeocode (geo := Sample.s2) (dec := Sample.codec) _ _ (5, 5)%float
           [("rgeo.Countries110", Sample.testland); ("rgeo.Provinces10", Sample.testshire)]
           Hnew).
  - vm_compute. discriminate.
  - assert (ContainingShapes (S2 := Sample.s2) (index Sample.engine)
              (pointFromCoord (geo := Sample.s2) (5, 5)%float) = [0; 1]) as ->
      by (vm_compute; reflexivity).
    repeat constructor; vm_compute; reflexivity.
Defined.

(** ** The merge of rgeo.go *)

Section MergeRgeoGo.
Context {F : Type} {num : Scalar F} {geo : S2 F}.

(** X20. The merge of the current source and the merge of rgeo.go agree on
    the ten fields they share: forgetting the county before merging or after
    gives the same location. *)
Theorem combineLocations_rgeo_go (r : Rgeo F) (s : list nat) :
  withoutCounty (combineLocations r s)
  = RgeoGoLocation.combineLocations (withoutCounty <$> locs r) s.
Proof.
  unfold combineLocations, RgeoGoLocation.combineLocations.
  change (RgeoGoLocation.mkLocation "" "" "" "" "" "" "" "" "" "")
    with (withoutCounty emptyLocation).
  generalize emptyLocation as l. induction s as [|shape s IH]; intros l; [done|].
  cbn [foldl]. rewrite IH. f_equal.
  unfold combineLocations_step, RgeoGoLocation.combineLocations_step, locationOf.
  rewrite lookup_fmap. by destruct (locs r !! shape).
Qed.
End MergeRgeoGo.
